(** * Cache layer and rate limiter over a Redis key space

    A shallow embedding of [CacheService] (common/services/cache.service.ts),
    [RateLimiterService] (common/services/rate-limiter.service.ts) and
    [RateLimitGuard] (common/guards/rate-limit.guard.ts), followed by the
    parts of [TasksService] (modules/tasks/tasks.service.ts) that go
    through the cache and by the refresh tokens of [AuthService]
    (modules/auth/auth.service.ts).

    The services are written against an ioredis client.  The client and the
    server are not part of the repository; they are modelled here as a key
    space with expiry times, a clock in milliseconds, and a schedule of
    connection faults.  Every service method is a computation in a state and
    exception monad over that world, so that [try]/[catch] in the source is
    [try_catch] here.

    Conventions of the model:
    - counts, limits, time-to-live values and clock readings are integers;
      the window duration in seconds and [msBeforeNext] are rationals, as
      the guard passes [windowMs / 1000]; arithmetic is exact;
    - client and server read one clock, and a service call takes no time;
      time passes between calls ([at_time]);
    - an entry that expires at [t] is there as long as [now < t];
    - a [value] is a value of the host that [JSON.stringify] turns into a
      text; at a [BigInt] or a cyclic object it throws inside the [try] of
      [set] and [mset], which log and rethrow before anything is sent;
    - the host computes with doubles; the exact arithmetic here agrees
      with it where the product [duration * 1000] is a double itself, as
      it is for a whole number of eighths of a second, and not for every
      [windowMs / 1000];
    - the logger has no effect on anything a service reads;
    - the reset header holds the time value given to [new Date], not its
      ISO text; the key of the guard is the hash of the caller's identity
      under an arbitrary hash function;
    - [getStats] and [onApplicationShutdown] are not embedded, nor are the
      transactions and queries of [TasksService] and [register] of
      [AuthService]. *)

From Stdlib Require Import ZArith QArith Qround Ascii List Bool Lia.
From Stdlib Require Import DecimalString DecimalPos DecimalZ.
From Stdlib Require Strings.String.
From stdpp Require Import gmap strings list fin_maps.

Open Scope Z_scope.

(** ** Numbers and strings of the host language *)

(** [`${n}`] for an integer [n]: its decimal numeral. *)
Definition Z_to_string (n : Z) : string :=
  NilZero.string_of_int (Z.to_int n).

Definition Z_of_string (s : string) : option Z :=
  match NilZero.int_of_string s with
  | Some d => Some (Z.of_int d)
  | None => None
  end.

(** JavaScript truthiness of a string: only the empty string is falsy. *)
Definition truthy (s : string) : bool :=
  match s with
  | EmptyString => false
  | String _ _ => true
  end.

(** Truthiness of an optional number: [undefined] and [0] are falsy. *)
Definition truthy_num (n : option Z) : bool :=
  match n with
  | Some v => negb (v =? 0)
  | None => false
  end.

(** [a || b] on numbers. *)
Definition or_default (a : option Z) (b : Z) : Z :=
  if truthy_num a then default b a else b.

(** ** The key space *)

Record entry := Entry { payload : string; expireAt : option Z }.

Abbreviation keyspace := (gmap string entry).

(** An entry with expiry time [t] exists during [now < t]. *)
Definition alive (now : Z) (e : entry) : bool :=
  match expireAt e with
  | None => true
  | Some t => now <? t
  end.

(** What a command sees under key [k] at time [now]: expired entries are
    absent, whether or not they have been reclaimed. *)
Definition peek (now : Z) (db : keyspace) (k : string) : option entry :=
  match db !! k with
  | Some e => if alive now e then Some e else None
  | None => None
  end.

Definition present (now : Z) (db : keyspace) (k : string) : bool :=
  match peek now db k with
  | Some _ => true
  | None => false
  end.

(** ** Glob patterns of KEYS

    [*] matches any run of characters, [?] one character, a backslash
    quotes the next character, [[...]] is a character class with ranges
    and [^] negation; everything else matches itself. *)
Module Glob.

Inductive item := One (c : ascii) | Range (lo hi : ascii).

Inductive token :=
| Star
| Any
| Lit (c : ascii)
| Class (negated : bool) (items : list item).

(** Items of a class up to the closing bracket, and the rest of the
    pattern. *)
Fixpoint class_items (p : string) : list item * string :=
  match p with
  | EmptyString => ([], EmptyString)
  | String "]"%char rest => ([], rest)
  | String "\"%char (String c rest) =>
      let (its, r) := class_items rest in (One c :: its, r)
  | String lo (String "-"%char (String hi rest)) =>
      let (its, r) := class_items rest in
      ((if (nat_of_ascii hi <? nat_of_ascii lo)%nat then Range hi lo else Range lo hi) :: its, r)
  | String c rest =>
      let (its, r) := class_items rest in (One c :: its, r)
  end.

Fixpoint tokens (fuel : nat) (p : string) : list token :=
  match fuel with
  | O => []
  | S fuel' =>
      match p with
      | EmptyString => []
      | String "*"%char rest => Star :: tokens fuel' rest
      | String "?"%char rest => Any :: tokens fuel' rest
      | String "\"%char (String c rest) => Lit c :: tokens fuel' rest
      | String "["%char (String "^"%char rest) =>
          let (its, r) := class_items rest in Class true its :: tokens fuel' r
      | String "["%char rest =>
          let (its, r) := class_items rest in Class false its :: tokens fuel' r
      | String c rest => Lit c :: tokens fuel' rest
      end
  end.

Definition in_item (c : ascii) (i : item) : bool :=
  match i with
  | One d => Ascii.eqb c d
  | Range lo hi =>
      (nat_of_ascii lo <=? nat_of_ascii c)%nat && (nat_of_ascii c <=? nat_of_ascii hi)%nat
  end.

Fixpoint matches (ts : list token) (s : string) : bool :=
  match ts with
  | [] => negb (truthy s)
  | Star :: ts' =>
      (fix star (s : string) : bool :=
         matches ts' s ||
         match s with
         | EmptyString => false
         | String _ s' => star s'
         end) s
  | Any :: ts' =>
      match s with
      | EmptyString => false
      | String _ s' => matches ts' s'
      end
  | Lit c :: ts' =>
      match s with
      | EmptyString => false
      | String d s' => Ascii.eqb c d && matches ts' s'
      end
  | Class neg its :: ts' =>
      match s with
      | EmptyString => false
      | String d s' => xorb neg (existsb (in_item d) its) && matches ts' s'
      end
  end.

Definition glob (pattern s : string) : bool :=
  matches (tokens (S (String.length pattern)) pattern) s.

(** Characters and strings without a special meaning in a pattern. *)
Definition plain (c : ascii) : bool :=
  negb (Ascii.eqb c "*" || Ascii.eqb c "?" || Ascii.eqb c "[" || Ascii.eqb c "\").

Fixpoint all_plain (s : string) : bool :=
  match s with
  | EmptyString => true
  | String c s' => plain c && all_plain s'
  end.

(** The tokens of a string taken literally. *)
Fixpoint literals (s : string) : list token :=
  match s with
  | EmptyString => []
  | String c s' => Lit c :: literals s'
  end.

End Glob.

(** ** Redis commands

    A command reads the server clock and the key space and yields a reply
    or an error reply, and the new key space. *)
Module Redis.

Inductive reply_error :=
| InvalidExpireTime
| NotAnInteger
| IncrementOverflow
| WrongNumberOfArguments.

Definition cmd (A : Type) : Type :=
  Z -> keyspace -> (A + reply_error) * keyspace.

(** A stored value that INCR accepts: the canonical numeral of a signed
    64-bit integer. *)
Definition as_int64 (s : string) : option Z :=
  match Z_of_string s with
  | Some n =>
      if String.eqb (Z_to_string n) s && (- 2 ^ 63 <=? n) && (n <=? 2 ^ 63 - 1)
      then Some n else None
  | None => None
  end.

Definition GET (k : string) : cmd (option string) :=
  fun now db => (inl (payload <$> peek now db k), db).

(** [SET k v EX seconds] *)
Definition SET_EX (k v : string) (seconds : Z) : cmd unit :=
  fun now db =>
    if seconds <=? 0 then (inr InvalidExpireTime, db)
    else (inl tt, <[k := Entry v (Some (now + seconds * 1000))]> db).

(** [SET k v PX milliseconds] *)
Definition SET_PX (k v : string) (ms : Z) : cmd unit :=
  fun now db =>
    if ms <=? 0 then (inr InvalidExpireTime, db)
    else (inl tt, <[k := Entry v (Some (now + ms))]> db).

Fixpoint del_keys (now : Z) (ks : list string) (db : keyspace) : Z * keyspace :=
  match ks with
  | [] => (0, db)
  | k :: ks' =>
      let here := if present now db k then 1 else 0 in
      let (n, db') := del_keys now ks' (base.delete k db) in
      (here + n, db')
  end.

Definition DEL (ks : list string) : cmd Z :=
  fun now db =>
    match ks with
    | [] => (inr WrongNumberOfArguments, db)
    | _ => let (n, db') := del_keys now ks db in (inl n, db')
    end.

Definition EXISTS (k : string) : cmd Z :=
  fun now db => (inl (if present now db k then 1 else 0), db).

Definition KEYS (pattern : string) : cmd (list string) :=
  fun now db =>
    (inl (filter (fun k => Glob.glob pattern k = true)
            (fst <$> map_to_list (filter (fun kv => alive now kv.2 = true) db))),
     db).

Definition FLUSHDB : cmd unit :=
  fun now db => (inl tt, ∅).

Definition INCR (k : string) : cmd Z :=
  fun now db =>
    match peek now db k with
    | None => (inl 1, <[k := Entry "1" None]> db)
    | Some e =>
        match as_int64 (payload e) with
        | None => (inr NotAnInteger, db)
        | Some n =>
            if n =? 2 ^ 63 - 1 then (inr IncrementOverflow, db)
            else (inl (n + 1), <[k := Entry (Z_to_string (n + 1)) (expireAt e)]> db)
        end
    end.

(** Remaining time to live in milliseconds; [-2] without the key, [-1]
    without an expiry. *)
Definition PTTL (k : string) : cmd Z :=
  fun now db =>
    (inl match peek now db k with
         | None => -2
         | Some e =>
             match expireAt e with
             | None => -1
             | Some t => t - now
             end
         end, db).

(** A timeout that is not positive deletes the key. *)
Definition PEXPIRE (k : string) (ms : Z) : cmd Z :=
  fun now db =>
    match peek now db k with
    | None => (inl 0, db)
    | Some e =>
        if ms <=? 0 then (inl 1, base.delete k db)
        else (inl 1, <[k := Entry (payload e) (Some (now + ms))]> db)
    end.

Definition MGET (ks : list string) : cmd (list (option string)) :=
  fun now db =>
    match ks with
    | [] => (inr WrongNumberOfArguments, db)
    | _ => (inl ((fun k => payload <$> peek now db k) <$> ks), db)
    end.

End Redis.

(** ** The world and the monad of service calls *)

(** Exceptions a service method can see.  [ConnectionError] and
    [ReplyError] are the backend errors; [SyntaxError] is raised by
    [JSON.parse], [TypeError] by reading a field of [undefined]. *)
Inductive error :=
| ConnectionError
| ReplyError (e : Redis.reply_error)
| SyntaxError
| TypeError.

Inductive outcome (A : Type) :=
| Ok (a : A)
| Throw (e : error).
Arguments Ok {A} a.
Arguments Throw {A} e.

(** [faults] schedules the failures of the backend: each command sent,
    each [exec] of a queue, and each command of a queue takes the head;
    [true] makes that one fail with a connection error.  An exhausted
    schedule is a healthy backend.  [raised] counts the backend errors
    reported so far, to the caller or into a result slot of [exec]. *)
Record world := World {
  db : keyspace;
  clock : Z;
  faults : list bool;
  raised : nat
}.

(** The errors that come from the backend. *)
Definition backend_error (e : error) : Prop :=
  match e with
  | ConnectionError | ReplyError _ => True
  | SyntaxError | TypeError => False
  end.

Definition M (A : Type) : Type := world -> outcome A * world.

Definition ret {A} (a : A) : M A := fun w => (Ok a, w).

Definition throw {A} (e : error) : M A := fun w => (Throw e, w).

Definition bind {A B} (m : M A) (k : A -> M B) : M B :=
  fun w =>
    match m w with
    | (Ok a, w') => k a w'
    | (Throw e, w') => (Throw e, w')
    end.

Definition try_catch {A} (body : M A) (handler : error -> M A) : M A :=
  fun w =>
    match body w with
    | (Ok a, w') => (Ok a, w')
    | (Throw e, w') => handler e w'
    end.

Notation "x <- m ;; k" := (bind m (fun x => k))
  (at level 100, m at next level, right associativity).
Notation "m ;;; k" := (bind m (fun _ => k))
  (at level 100, right associativity).

(** [Date.now()] *)
Definition Date_now : M Z := fun w => (Ok (clock w), w).

(** The logger writes nowhere the services read. *)
Definition log : M unit := ret tt.

(** No failure scheduled for anything still to come. *)
Definition healthy (w : world) : Prop := Forall (fun b => b = false) (faults w).

(** The same world when the clock reads [t]. *)
Definition at_time (t : Z) (w : world) : world :=
  World (db w) t (faults w) (raised w).

(** ** The client *)
Module Client.

(** One command, one round trip: the promise rejects when the
    connection is lost or the server replies with an error. *)
Definition send {A} (c : Redis.cmd A) : M A :=
  fun w =>
    match faults w with
    | true :: fs => (Throw ConnectionError, World (db w) (clock w) fs (S (raised w)))
    | _ =>
        match c (clock w) (db w) with
        | (inl a, d) => (Ok a, World d (clock w) (tail (faults w)) (raised w))
        | (inr e, d) => (Throw (ReplyError e), World d (clock w) (tail (faults w)) (S (raised w)))
        end
    end.

(** The queued commands of a pipeline or transaction, in order; each
    one fills its own [[err, result]] slot. *)
Fixpoint run_queue {A} (q : list (Redis.cmd A)) (w : world) : list (outcome A) * world :=
  match q with
  | [] => ([], w)
  | c :: q' =>
      let (r, w1) := send c w in
      let (rs, w2) := run_queue q' w1 in
      (r :: rs, w2)
  end.

(** [multi.exec()]: rejects when the round trip itself is lost,
    otherwise resolves with one slot per command. *)
Definition exec {A} (q : list (Redis.cmd A)) : M (list (outcome A)) :=
  fun w =>
    match faults w with
    | true :: fs => (Throw ConnectionError, World (db w) (clock w) fs (S (raised w)))
    | _ =>
        let (rs, w') := run_queue q (World (db w) (clock w) (tail (faults w)) (raised w)) in
        (Ok rs, w')
    end.

(** [pipeline.exec()] outside a transaction always resolves with one
    slot per command; when the connection is lost, every slot holds
    that error. *)
Definition pipeline_exec {A} (q : list (Redis.cmd A)) : M (list (outcome A)) :=
  fun w =>
    match faults w with
    | true :: fs =>
        (Ok ((fun _ => Throw ConnectionError) <$> q),
         World (db w) (clock w) fs (length q + raised w))
    | _ =>
        let (rs, w') := run_queue q (World (db w) (clock w) (tail (faults w)) (raised w)) in
        (Ok rs, w')
    end.

End Client.

(** ** JSON

    [JSON.stringify] and [JSON.parse] of the host, over its type of
    values.  [JSON_parse] is [None] where the host raises a syntax
    error. *)
Class Json := {
  value : Type;
  null : value;
  JSON_stringify : value -> string;
  JSON_parse : string -> option value
}.

(** ** CacheService *)
Module CacheService.
Section Service.
Context `{Json}.

Record CacheOptions := { ttl : option Z; namespace : option string }.

Definition DEFAULT_TTL : Z := 300.

Definition getKey (key : string) (namespace : option string) : string :=
  match namespace with
  | Some ns => if truthy ns then ns +:+ ":" +:+ key else key
  | None => key
  end.

Definition set (key : string) (v : value) (options : CacheOptions) : M unit :=
  let ttl := default DEFAULT_TTL (ttl options) in
  let finalKey := getKey key (namespace options) in
  try_catch
    (let serializedValue := JSON_stringify v in
     Client.send (Redis.SET_EX finalKey serializedValue ttl))
    (fun e => log ;;; throw e).

Definition parse (s : string) : M value :=
  match JSON_parse s with
  | Some v => ret v
  | None => throw SyntaxError
  end.

Definition get (key : string) (namespace : option string) : M value :=
  let finalKey := getKey key namespace in
  try_catch
    (v <- Client.send (Redis.GET finalKey) ;;
     match v with
     | Some s => if truthy s then parse s else ret null
     | None => ret null
     end)
    (fun _ => log ;;; ret null).

Definition delete (key : string) (namespace : option string) : M bool :=
  let finalKey := getKey key namespace in
  try_catch
    (result <- Client.send (Redis.DEL [finalKey]) ;;
     ret (result =? 1))
    (fun _ => log ;;; ret false).

Definition clear (namespace : option string) : M unit :=
  try_catch
    (match namespace with
     | Some ns =>
         if truthy ns then
           keys <- Client.send (Redis.KEYS (ns +:+ ":*")) ;;
           if (0 <? length keys)%nat
           then Client.send (Redis.DEL keys) ;;; ret tt
           else ret tt
         else Client.send Redis.FLUSHDB
     | None => Client.send Redis.FLUSHDB
     end)
    (fun e => log ;;; throw e).

Definition has (key : string) (namespace : option string) : M bool :=
  let finalKey := getKey key namespace in
  try_catch
    (exists_ <- Client.send (Redis.EXISTS finalKey) ;;
     ret (exists_ =? 1))
    (fun _ => log ;;; ret false).

(** [keyValues] is the object's entries in enumeration order. *)
Definition mset (keyValues : list (string * value)) (options : CacheOptions) : M unit :=
  let ttl := default DEFAULT_TTL (ttl options) in
  let pipeline :=
    (fun kv : string * value =>
       let finalKey := getKey kv.1 (namespace options) in
       let serializedValue := JSON_stringify kv.2 in
       Redis.SET_EX finalKey serializedValue ttl) <$> keyValues in
  try_catch
    (Client.pipeline_exec pipeline ;;; ret tt)
    (fun e => log ;;; throw e).

Fixpoint parse_all (values : list (option string)) : M (list value) :=
  match values with
  | [] => ret []
  | v :: rest =>
      x <- match v with
           | Some s => if truthy s then parse s else ret null
           | None => ret null
           end ;;
      xs <- parse_all rest ;;
      ret (x :: xs)
  end.

(** What a reader gets for the text stored under [k] at time [now]. *)
Definition deserialized (now : Z) (d : keyspace) (k : string) : value :=
  match peek now d k with
  | Some e => default null (JSON_parse (payload e))
  | None => null
  end.

(** The text stored under [k], if any, is non-empty JSON. *)
Definition holds_json (now : Z) (d : keyspace) (k : string) : Prop :=
  forall e, peek now d k = Some e ->
    truthy (payload e) = true /\ is_Some (JSON_parse (payload e)).

Definition mget (keys : list string) (namespace : option string) : M (list value) :=
  let finalKeys := (fun key => getKey key namespace) <$> keys in
  try_catch
    (values <- Client.send (Redis.MGET finalKeys) ;;
     parse_all values)
    (fun _ => log ;;; ret (replicate (length keys) null)).

End Service.
End CacheService.

(** ** RateLimiterService *)
Module RateLimiterService.

Record RateLimitConfig := {
  points : Z;
  duration : Q;
  blockDuration : option Z
}.

Record ConsumeResult := {
  success : bool;
  remainingPoints : Z;
  msBeforeNext : Q
}.

(** The client is created with [keyPrefix: 'ratelimit:'], which it puts
    in front of the key of every command. *)
Definition keyPrefix : string := "ratelimit:".

Definition prefixed (k : string) : string := keyPrefix +:+ k.

(** The value of [Math.floor(now / d)]. *)
Inductive number := Finite (n : Z) | Infinity | NegInfinity | NaN.

Definition floor_div (now : Z) (d : Q) : number :=
  if Qeq_bool d 0 then
    if now =? 0 then NaN else if 0 <? now then Infinity else NegInfinity
  else Finite (Qfloor (inject_Z now / d)).

Definition number_to_string (x : number) : string :=
  match x with
  | Finite n => Z_to_string n
  | Infinity => "Infinity"
  | NegInfinity => "-Infinity"
  | NaN => "NaN"
  end.

(** A numeric argument reaches the server as its decimal text; the
    server takes it as a timeout only if it is an integer. *)
Definition PEXPIRE (k : string) (ms : Q) : Redis.cmd Z :=
  if Qnum ms mod Zpos (Qden ms) =? 0
  then Redis.PEXPIRE k (Qnum ms / Zpos (Qden ms))
  else fun now db => (inr Redis.NotAnInteger, db).

(** [if (slot[0]) throw slot[0]], then [slot[1]]. *)
Definition slot {A} (r : outcome A) : M A :=
  match r with
  | Ok a => ret a
  | Throw e => throw e
  end.

Definition failOpen : ConsumeResult :=
  {| success := true; remainingPoints := 1; msBeforeNext := 0 |}.

(** [`${key}:${Math.floor(now / (duration * 1000))}`] *)
Definition resultKey (key : string) (now : Z) (duration : Q) : string :=
  key +:+ ":" +:+ number_to_string (floor_div now (duration * 1000)).

Definition consume (key : string) (config : RateLimitConfig) : M ConsumeResult :=
  let points := points config in
  let duration := duration config in
  let blockDuration := blockDuration config in
  now <- Date_now ;;
  let resultKey := resultKey key now duration in
  let multi := [Redis.INCR (prefixed resultKey); Redis.PTTL (prefixed resultKey)] in
  try_catch
    (slots <- Client.exec multi ;;
     match slots with
     | [consumed; ttl] =>
         consumedPoints <- slot consumed ;;
         ttl1 <- slot ttl ;;
         (if consumedPoints =? 1
          then Client.send (PEXPIRE (prefixed resultKey) (duration * 1000)) ;;; ret tt
          else ret tt) ;;;
         let isFirstRequest := consumedPoints =? 1 in
         let remainingPoints := Z.max (points - consumedPoints) 0 in
         let msBeforeNext := if isFirstRequest then (duration * 1000)%Q else inject_Z ttl1 in
         (if (points <? consumedPoints) && truthy_num blockDuration
          then Client.send (Redis.SET_PX (prefixed (key +:+ ":blocked")) "1"
                              (default 0 blockDuration * 1000))
          else ret tt) ;;;
         ret {| success := consumedPoints <=? points;
                remainingPoints := remainingPoints;
                msBeforeNext := msBeforeNext |}
     | _ => throw TypeError
     end)
    (fun _ => log ;;; ret failOpen).

Definition isBlocked (key : string) : M bool :=
  try_catch
    (n <- Client.send (Redis.EXISTS (prefixed (key +:+ ":blocked"))) ;;
     ret (n =? 1))
    (fun _ => log ;;; ret false).

(** The count a window key holds at time [now]; [0] without the key. *)
Definition hits (now : Z) (d : keyspace) (k : string) : Z :=
  match peek now d k with
  | Some e => default 0 (Redis.as_int64 (payload e))
  | None => 0
  end.

(** A block duration that is absent or not negative. *)
Definition blockDuration_valid (bd : option Z) : Prop :=
  match bd with
  | Some b => 0 <= b
  | None => True
  end.

(** [t] falls into the window of [t1], for windows of [D] seconds. *)
Definition same_window (D t1 t : Z) : Prop :=
  floor_div t (inject_Z D * 1000) = floor_div t1 (inject_Z D * 1000).

(** One [consume] at each of the given times, in order. *)
Fixpoint consume_each (key : string) (config : RateLimitConfig) (times : list Z)
    (w : world) : list (outcome ConsumeResult) * world :=
  match times with
  | [] => ([], w)
  | t :: ts =>
      let (r, w1) := consume key config (at_time t w) in
      let (rs, w2) := consume_each key config ts w1 in
      (r :: rs, w2)
  end.

End RateLimiterService.

(** ** RateLimitGuard *)
Module RateLimitGuard.
Section Guard.
Import RateLimiterService.

(** SHA-256 of a string, in hexadecimal. *)
Variable sha256_hex : string -> string.

(** What [@RateLimit({ limit, windowMs })] attached to the route. *)
Record RateLimitOptions := { limit : option Z; windowMs : option Z }.

Record ResolvedOptions := { limit' : Z; windowMs' : Z }.

Record request := {
  ip : string;
  user_agent : option string;
  route_path : option string;
  url : string
}.

Record RateLimitHeaders := {
  X_RateLimit_Limit : Z;
  X_RateLimit_Remaining : Z;
  (** the time value given to [new Date] *)
  X_RateLimit_Reset : Q
}.

Record HttpException := {
  statusCode : Z;
  retryAfter : option Z
}.

Definition TOO_MANY_REQUESTS : Z := 429.

(** How [canActivate] ends: the headers it has set on the response,
    and either its return value or the exception it throws. *)
Record verdict := {
  headers : option RateLimitHeaders;
  result : bool + HttpException
}.

Definition getRateLimitConfig (metadata : option RateLimitOptions) : option ResolvedOptions :=
  let defaultLimit := 100 in
  let defaultWindowMs := 60000 in
  match metadata with
  | None => None
  | Some rateLimit =>
      Some {| limit' := or_default (limit rateLimit) defaultLimit;
              windowMs' := or_default (windowMs rateLimit) defaultWindowMs |}
  end.

Definition or_string (a : option string) (b : string) : string :=
  match a with
  | Some s => if truthy s then s else b
  | None => b
  end.

Definition generateKey (req : request) : string :=
  let userAgent := or_string (user_agent req) "" in
  let path := or_string (route_path req) (url req) in
  sha256_hex (ip req +:+ ":" +:+ userAgent +:+ ":" +:+ path).

Definition canActivate (req : request) (metadata : option RateLimitOptions) : M verdict :=
  match getRateLimitConfig metadata with
  | None => ret {| headers := None; result := inl true |}
  | Some rateLimit =>
      let key := generateKey req in
      blocked <- isBlocked key ;;
      if blocked : bool then
        ret {| headers := None;
               result := inr {| statusCode := TOO_MANY_REQUESTS; retryAfter := None |} |}
      else
        r <- consume key {| points := limit' rateLimit;
                            duration := inject_Z (windowMs' rateLimit) / 1000;
                            blockDuration := Some 60 |} ;;
        now <- Date_now ;;
        let response :=
          {| X_RateLimit_Limit := limit' rateLimit;
             X_RateLimit_Remaining := remainingPoints r;
             X_RateLimit_Reset := inject_Z now + msBeforeNext r |} in
        if negb (success r) then
          ret {| headers := Some response;
                 result := inr {| statusCode := TOO_MANY_REQUESTS;
                                  retryAfter := Some (Qceiling (msBeforeNext r / 1000)) |} |}
        else
          ret {| headers := Some response; result := inl true |}
  end.

End Guard.
End RateLimitGuard.

(** ** A host for running the services

    The fragment of the host's values made of [null], the booleans, the
    integers and [NaN], with [JSON.stringify] and [JSON.parse] on it:
    [NaN] is written as [null], an integer as its canonical numeral.
    [parse] reads the texts that [stringify] writes; it is [None] on
    every other text, also on those the host would accept. *)
Module Host.

Inductive jsval :=
| VNull
| VBool (b : bool)
| VInt (n : Z)
| VNaN.

Definition stringify (v : jsval) : string :=
  match v with
  | VNull => "null"
  | VBool true => "true"
  | VBool false => "false"
  | VInt n => Z_to_string n
  | VNaN => "null"
  end.

Definition parse (s : string) : option jsval :=
  if String.eqb s "null" then Some VNull
  else if String.eqb s "true" then Some (VBool true)
  else if String.eqb s "false" then Some (VBool false)
  else
    match Z_of_string s with
    | Some n => if String.eqb (Z_to_string n) s then Some (VInt n) else None
    | None => None
    end.

Definition json : Json :=
  {| value := jsval; null := VNull; JSON_stringify := stringify; JSON_parse := parse |}.

(** A server with an empty key space, at time [now]. *)
Definition fresh (now : Z) (faults : list bool) : world :=
  World ∅ now faults 0.

End Host.

(** ** The connection of CacheService

    The [retryStrategy] the constructor gives the client: the delay in
    milliseconds before reconnection attempt [times], or [None] for
    [null], which gives up. *)
Module CacheConnection.

Definition retryStrategy (times : Z) : option Z :=
  if 3 <? times then None
  else Some (Z.min (times * 100) 3000).

End CacheConnection.

(** ** TasksService, reading through the cache

    [findOne] of modules/tasks/tasks.service.ts.  The repository is the
    function [repository_findOne] from an id to the row, if there is one;
    [is_truthy] is the truthiness of a host value.  A row is an object
    and so truthy. *)
Module TasksService.
Section Service.
Context `{Json}.

Variable is_truthy : value -> bool.
Variable repository_findOne : string -> option value.

(** [TASK_CACHE_PATTERNS.SINGLE_TASK] *)
Definition SINGLE_TASK (id : string) : string := "task:" +:+ id.

(** How [findOne] ends when it does not fail on the backend: with the
    task, or by throwing [NotFoundException]. *)
Inductive found := Task (task : value) | NotFoundException.

Definition findOne (id : string) : M found :=
  let cacheKey := SINGLE_TASK id in
  cached <- CacheService.get cacheKey None ;;
  if is_truthy cached then ret (Task cached)
  else
    match repository_findOne id with
    | None => ret NotFoundException
    | Some task =>
        CacheService.set cacheKey task
          {| CacheService.ttl := Some 300; CacheService.namespace := None |} ;;;
        ret (Task task)
    end.

(** The invalidation that [update], [remove] and [executeBatchOperation]
    run once the transaction is committed:
    [Promise.all([...taskIds.map(id => delete(SINGLE_TASK(id))), clear('tasks')])],
    with the one id of the task for [update] and [remove].  Every call
    of the array sends its first command when it is made, so the server
    sees the [DEL]s in the order of [taskIds], then the [KEYS] of
    [clear], then its [DEL].  [delete] never rejects, so the whole
    rejects exactly when [clear] does. *)
Fixpoint delete_each (taskIds : list string) : M unit :=
  match taskIds with
  | [] => ret tt
  | taskId :: rest => CacheService.delete (SINGLE_TASK taskId) None ;;; delete_each rest
  end.

Definition invalidate (taskIds : list string) : M unit :=
  delete_each taskIds ;;; CacheService.clear (Some "tasks").

End Service.
End TasksService.

(** ** AuthService, refresh tokens

    [login], [refreshTokens], [logout] and the token generators of
    modules/auth/auth.service.ts, over the table of refresh tokens.  A
    row is found by the position it has in the table: [findOne] with
    [where: { token }] gives the first row with that token, [save] of a
    row that was found writes it back in its place, [save] of a row made
    by [create] adds it at the end, unrevoked, and [update] changes every
    row that meets its criteria.  The relation [user] of a row is the
    row of the users table whose [id] is its [userId].  The database
    answers every query; within one call the clock stands still.
    [bcrypt.hash] salts its input afresh at each call, so it is a
    function of the number of hashes drawn so far as well. *)
Module AuthService.

Record User := { id : string; email : string; name : string; password : string; role : string }.

Record RefreshToken :=
  { token : string; userId : string; expiresAt : Z; isRevoked : bool }.

Record database := { refresh_tokens : list RefreshToken; now : Z; hashes : nat }.

Inductive exception :=
| UnauthorizedException (message : string)
| ForbiddenException (message : string)
| TypeError.

Inductive result (A : Type) :=
| Return (a : A)
| Raise (e : exception).
Arguments Return {A} a.
Arguments Raise {A} e.

Record LoginDto := { LoginDto_email : string; LoginDto_password : string }.

Record Tokens := { access_token : string; refresh_token : string }.

Record Session := { tokens : Tokens; user : string * string * string }.

(** The same database when the clock reads [t]. *)
Definition at_time (t : Z) (d : database) : database :=
  {| refresh_tokens := refresh_tokens d; now := t; hashes := hashes d |}.

Definition revoked (r : RefreshToken) : RefreshToken :=
  {| token := token r; userId := userId r; expiresAt := expiresAt r; isRevoked := true |}.

(** What the service is given: [UsersService], the users table behind
    the relation, [bcrypt], [JwtService], [ConfigService] and [ms]. *)
Class Services := {
  usersService_findByEmail : string -> option User;
  users : list User;
  bcrypt_compare : string -> string -> bool;
  bcrypt_hash : nat -> string -> Z -> string;
  jwt_sign : string * string * string -> string -> string;
  configService_get : string -> option string;
  ms : string -> Z
}.

Section Service.
Context `{Services}.

(** [token.user], loaded with [relations: ['user']] *)
Definition relation_user (r : RefreshToken) : option User :=
  List.find (fun u => String.eqb (id u) (userId r)) users.

(** [refreshTokenRepository.findOne({ where: { token } })] *)
Definition findOne (refreshToken : string) (d : database) : option (nat * RefreshToken) :=
  list_find (fun r => token r = refreshToken) (refresh_tokens d).

Definition generateAccessToken (userId email role : string) : string :=
  jwt_sign (userId, email, role)
    (RateLimitGuard.or_string (configService_get "JWT_ACCESS_EXPIRATION") "15m").

Definition generateRefreshToken (userId : string) (d : database) : string * database :=
  let token := bcrypt_hash (hashes d) (userId +:+ Z_to_string (now d)) 10 in
  let expiresIn := RateLimitGuard.or_string (configService_get "JWT_REFRESH_EXPIRATION") "7d" in
  let refreshToken :=
    {| token := token; userId := userId; expiresAt := now d + ms expiresIn; isRevoked := false |} in
  (token,
   {| refresh_tokens := refresh_tokens d ++ [refreshToken]; now := now d; hashes := S (hashes d) |}).

Definition generateTokens (userId email role : string) (d : database) : Tokens * database :=
  let accessToken := generateAccessToken userId email role in
  let (refreshToken, d') := generateRefreshToken userId d in
  ({| access_token := accessToken; refresh_token := refreshToken |}, d').

Definition login (loginDto : LoginDto) (d : database) : result Session * database :=
  match usersService_findByEmail (LoginDto_email loginDto) with
  | None => (Raise (UnauthorizedException "Invalid credentials"), d)
  | Some user =>
      let passwordValid := bcrypt_compare (LoginDto_password loginDto) (password user) in
      if negb passwordValid then (Raise (UnauthorizedException "Invalid credentials"), d)
      else
        let (tokens, d') := generateTokens (id user) (email user) (role user) d in
        (Return {| tokens := tokens; user := (id user, email user, role user) |}, d')
  end.

Definition refreshTokens (refreshToken : string) (d : database) : result Tokens * database :=
  match findOne refreshToken d with
  | None => (Raise (ForbiddenException "Invalid refresh token"), d)
  | Some (i, token) =>
      if isRevoked token || (expiresAt token <? now d)
      then (Raise (ForbiddenException "Invalid refresh token"), d)
      else
        let d1 := {| refresh_tokens := <[i := revoked token]> (refresh_tokens d);
                     now := now d; hashes := hashes d |} in
        match relation_user token with
        | None => (Raise TypeError, d1)
        | Some user =>
            let (tokens, d2) := generateTokens (id user) (email user) (role user) d1 in
            (Return tokens, d2)
        end
  end.

(** [update({ userId, isRevoked: false }, { isRevoked: true })] *)
Definition logout (userId' : string) (d : database) : database :=
  {| refresh_tokens :=
       (fun r => if String.eqb (userId r) userId' && negb (isRevoked r) then revoked r else r)
         <$> refresh_tokens d;
     now := now d; hashes := hashes d |}.

(** A client's calls one after the other, and the passing of time. *)
Inductive call :=
| Login (loginDto : LoginDto)
| RefreshTokens (refreshToken : string)
| Logout (userId : string)
| Wait (until : Z).

Definition step (c : call) (d : database) : database :=
  match c with
  | Login loginDto => (login loginDto d).2
  | RefreshTokens refreshToken => (refreshTokens refreshToken d).2
  | Logout userId => logout userId d
  | Wait until => at_time until d
  end.

Definition run (calls : list call) (d : database) : database :=
  foldl (fun d c => step c d) d calls.

End Service.

(** Row by row, [l'] holds what [l] held, except that rows may have
    been revoked. *)
Definition kept (l l' : list RefreshToken) : Prop :=
  forall k y, l !! k = Some y ->
    exists y', l' !! k = Some y' /\ token y' = token y /\ userId y' = userId y /\
               expiresAt y' = expiresAt y /\ (isRevoked y = true -> isRevoked y' = true).

(** The first row with token [t] is revoked. *)
Definition spent (t : string) (l : list RefreshToken) : Prop :=
  exists i r, list_find (fun r => token r = t) l = Some (i, r) /\ isRevoked r = true.

(** Two users and collaborators to run the service with: hashes that
    can be read, no configuration, and the two durations [ms] is asked
    for. *)
Definition host_users : list User :=
  [ {| id := "u1"; email := "ann@example.org"; name := "Ann";
       password := "bcrypt:secret"; role := "admin" |};
    {| id := "u2"; email := "bob@example.org"; name := "Bob";
       password := "bcrypt:hunter2"; role := "user" |} ].

Definition host : Services :=
  {| usersService_findByEmail := fun e => List.find (fun u => String.eqb (email u) e) host_users;
     users := host_users;
     bcrypt_compare := fun data encrypted => String.eqb ("bcrypt:" +:+ data) encrypted;
     bcrypt_hash := fun salt data _ => data +:+ "/" +:+ Z_to_string (Z.of_nat salt);
     jwt_sign := fun payload expiresIn => payload.1.1 +:+ "." +:+ expiresIn;
     configService_get := fun _ => None;
     ms := fun s => if String.eqb s "7d" then 604800000
                    else if String.eqb s "15m" then 900000 else 0 |}.

End AuthService.

(** * Properties *)

(** ** The model at work *)

Example glob_examples :
  (Glob.glob "tasks:*" "tasks:{}", Glob.glob "tasks:*" "task:1", Glob.glob "tasks:*" "tasks:",
   Glob.glob "h[a-c]l\*o?" "hbl*ox", Glob.glob "h[^a-c]llo" "hbllo", Glob.glob "a*b*c" "a1b2c")
  = (true, false, true, true, false, true).
Proof. reflexivity. Qed.

(** Three calls in the first minute against a limit of two, then one in
    the next minute. *)
Example consume_examples :
  let config := {| RateLimiterService.points := 2;
                   RateLimiterService.duration := inject_Z 60;
                   RateLimiterService.blockDuration := Some 60 |} in
  let run := RateLimiterService.consume_each "user" config [1000; 2000; 3000; 61000]
               (Host.fresh 0 []) in
  (fun o => match o with
            | Ok r => Some (RateLimiterService.success r, RateLimiterService.remainingPoints r)
            | Throw _ => None
            end) <$> run.1
    = [Some (true, 1); Some (true, 0); Some (false, 0); Some (true, 1)] /\
  db run.2 !! "ratelimit:user:0" = Some (Entry "3" (Some 61000)) /\
  db run.2 !! "ratelimit:user:blocked" = Some (Entry "1" (Some 63000)) /\
  db run.2 !! "ratelimit:user:1" = Some (Entry "1" (Some 121000)).
Proof. vm_compute. repeat split; reflexivity. Qed.

(** A lost connection in the middle of the second call. *)
Example consume_fault_example :
  let config := {| RateLimiterService.points := 2;
                   RateLimiterService.duration := inject_Z 60;
                   RateLimiterService.blockDuration := Some 60 |} in
  (RateLimiterService.consume_each "user" config [1000; 2000]
     (Host.fresh 0 [false; false; false; false; false; true])).1
  = [Ok {| RateLimiterService.success := true; RateLimiterService.remainingPoints := 1;
           RateLimiterService.msBeforeNext := 60000 |};
     Ok RateLimiterService.failOpen].
Proof. vm_compute. reflexivity. Qed.

(** ** The client *)

Lemma send_inv {A} (c : Redis.cmd A) (w : world) r w' :
  Client.send c w = (r, w') ->
  (exists a, r = Ok a /\ c (clock w) (db w) = (inl a, db w') /\
             w' = World (db w') (clock w) (tail (faults w)) (raised w)) \/
  (exists e, r = Throw e /\ raised w' = S (raised w) /\ clock w' = clock w /\
             faults w' = tail (faults w)).
Proof.
  unfold Client.send. intros E.
  destruct (faults w) as [|[] fs] eqn:F.
  - destruct (c (clock w) (db w)) as [[a|e] d] eqn:C; inversion E; subst; simpl.
    + left. eexists; eauto.
    + right. eexists; eauto.
  - inversion E; subst; simpl. right. eexists; eauto.
  - destruct (c (clock w) (db w)) as [[a|e] d] eqn:C; inversion E; subst; simpl.
    + left. eexists; eauto.
    + right. eexists; eauto.
Qed.

Lemma Forall_tail_false (fs : list bool) :
  Forall (fun b => b = false) fs -> Forall (fun b => b = false) (tail fs).
Proof. intros Hh. destruct fs; simpl; auto. by inversion Hh. Qed.

Ltac healthy_tac :=
  unfold healthy in *; simpl; repeat apply Forall_tail_false; assumption.

Lemma send_healthy {A} (c : Redis.cmd A) (w : world) :
  healthy w ->
  Client.send c w =
    match c (clock w) (db w) with
    | (inl a, d) => (Ok a, World d (clock w) (tail (faults w)) (raised w))
    | (inr e, d) => (Throw (ReplyError e), World d (clock w) (tail (faults w)) (S (raised w)))
    end.
Proof.
  unfold healthy, Client.send. intros Hh.
  destruct (faults w) as [|[] fs]; try reflexivity. inversion Hh; discriminate.
Qed.

Lemma raised_send_Ok {A} (c : Redis.cmd A) w a w' :
  Client.send c w = (Ok a, w') -> raised w' = raised w.
Proof.
  intros E. destruct (send_inv _ _ _ _ E) as [(a' & ? & ? & ->)|(e & ? & _)]; [done|congruence].
Qed.

Lemma raised_send_Throw {A} (c : Redis.cmd A) w e w' :
  Client.send c w = (Throw e, w') -> raised w' = S (raised w).
Proof.
  intros E. destruct (send_inv _ _ _ _ E) as [(a' & ? & ?)|(e' & ? & ? & _)]; [congruence|done].
Qed.

Lemma send_Ok_inv {A} (c : Redis.cmd A) (w : world) a w' :
  Client.send c w = (Ok a, w') ->
  c (clock w) (db w) = (inl a, db w') /\ clock w' = clock w /\ raised w' = raised w.
Proof.
  intros E. apply send_inv in E as [(a' & [= <-] & E & ->)|(e & ? & _)]; [|discriminate].
  simpl. auto.
Qed.

Lemma send_raised_le {A} (c : Redis.cmd A) (w : world) r w' :
  Client.send c w = (r, w') -> (raised w <= raised w')%nat.
Proof.
  intros E. apply send_inv in E as [(a' & ? & ? & ->)|(e & ? & ? & _)]; simpl; lia.
Qed.

Lemma send_Throw_backend {A} (c : Redis.cmd A) w e w' :
  Client.send c w = (Throw e, w') -> backend_error e.
Proof.
  unfold Client.send.
  destruct (faults w) as [|[] fs]; try (intros [= <- _]; exact I);
    destruct (c (clock w) (db w)) as [[a|e'] d]; intros [= <- _]; exact I.
Qed.

Lemma exec_healthy {A} (q : list (Redis.cmd A)) (w : world) :
  healthy w ->
  Client.exec q w =
    let (rs, w') := Client.run_queue q (World (db w) (clock w) (tail (faults w)) (raised w)) in
    (Ok rs, w').
Proof.
  unfold healthy, Client.exec. intros Hh.
  destruct (faults w) as [|[] fs]; try reflexivity. inversion Hh; discriminate.
Qed.

Lemma pipeline_exec_healthy {A} (q : list (Redis.cmd A)) (w : world) :
  healthy w ->
  Client.pipeline_exec q w =
    let (rs, w') := Client.run_queue q (World (db w) (clock w) (tail (faults w)) (raised w)) in
    (Ok rs, w').
Proof.
  unfold healthy, Client.pipeline_exec. intros Hh.
  destruct (faults w) as [|[] fs]; try reflexivity. inversion Hh; discriminate.
Qed.

(** ** Rate limiter *)
Import RateLimiterService.

(** *** Numerals *)

Lemma Z_to_int_proper n : Z.to_int n <> Decimal.Pos Decimal.Nil /\ Z.to_int n <> Decimal.Neg Decimal.Nil.
Proof.
  destruct n; simpl; split; try discriminate; intros [= E];
    by apply DecimalPos.Unsigned.to_uint_nonnil in E.
Qed.

Lemma Z_of_to_string n : Z_of_string (Z_to_string n) = Some n.
Proof.
  unfold Z_of_string, Z_to_string. destruct (Z_to_int_proper n) as [H1 H2].
  rewrite NilZero.isi by assumption. by rewrite DecimalZ.of_to.
Qed.

Lemma as_int64_to_string n :
  - 2 ^ 63 <= n <= 2 ^ 63 - 1 -> Redis.as_int64 (Z_to_string n) = Some n.
Proof.
  intros Hn. unfold Redis.as_int64. rewrite Z_of_to_string, String.eqb_refl.
  destruct (Z.leb_spec (- 2 ^ 63) n), (Z.leb_spec n (2 ^ 63 - 1)); simpl; auto; lia.
Qed.

Lemma uint_head_digit d :
  d <> Decimal.Nil -> exists c s, NilEmpty.string_of_uint d = String c s /\ c <> "b"%char.
Proof.
  destruct d; intros Hd; try congruence; simpl; eexists _, _; split; try reflexivity; discriminate.
Qed.

Lemma Z_to_string_not_blocked n : Z_to_string n <> "blocked".
Proof.
  unfold Z_to_string. destruct n as [|p|p]; simpl; try discriminate.
  - pose proof (DecimalPos.Unsigned.to_uint_nonnil p) as Hp.
    unfold NilZero.string_of_uint.
    destruct (uint_head_digit _ Hp) as (c & s & E & Hc).
    destruct (Pos.to_uint p); try congruence; rewrite E; intros [= ? ?]; congruence.
Qed.

Lemma floor_div_pos t D :
  0 < D -> floor_div t (inject_Z D * 1000) = Finite (t / (D * 1000)).
Proof.
  intros HD. unfold floor_div.
  destruct (Qeq_bool (inject_Z D * 1000) 0) eqn:E.
  - apply Qeq_bool_eq in E. unfold Qeq in E. simpl in E. lia.
  - f_equal. unfold Qdiv, Qmult, Qinv, inject_Z. simpl.
    destruct (D * 1000) as [|p|p] eqn:Hm; try lia. simpl.
    by rewrite Z.mul_1_r.
Qed.

Lemma same_window_lt t t1 m :
  0 < m -> t / m = t1 / m -> t < t1 + m.
Proof.
  intros Hm E.
  pose proof (Z.mul_succ_div_gt t m Hm). pose proof (Z.mul_div_le t1 m Hm).
  rewrite E in H. nia.
Qed.

Lemma PEXPIRE_whole k D :
  PEXPIRE k (inject_Z D * 1000) = Redis.PEXPIRE k (D * 1000).
Proof.
  unfold PEXPIRE. simpl. rewrite Z.mod_1_r, Z.div_1_r. reflexivity.
Qed.

Lemma block_key_ne key n :
  prefixed (key +:+ ":" +:+ Z_to_string n) <> prefixed (key +:+ ":blocked").
Proof.
  unfold prefixed. intros E. apply (inj (String.app _)) in E. apply (inj (String.app _)) in E.
  injection E as E. by apply Z_to_string_not_blocked in E.
Qed.

Lemma consume_hit key P D bd w j x :
  0 < D -> blockDuration_valid bd -> healthy w ->
  db w !! prefixed (resultKey key (clock w) (inject_Z D)) = Some (Entry (Z_to_string j) (Some x)) ->
  clock w < x -> 1 <= j < 2 ^ 63 - 1 ->
  exists w',
    consume key {| points := P; duration := inject_Z D; blockDuration := bd |} w =
      (Ok {| success := j + 1 <=? P; remainingPoints := Z.max (P - (j + 1)) 0;
             msBeforeNext := inject_Z (x - clock w) |}, w') /\
    healthy w' /\ clock w' = clock w /\ raised w' = raised w /\
    db w' !! prefixed (resultKey key (clock w) (inject_Z D)) =
      Some (Entry (Z_to_string (j + 1)) (Some x)).
Proof.
  intros HD Hbd Hh Hk Hx Hj.
  unfold consume, bind, try_catch, Date_now. simpl.
  rewrite exec_healthy by assumption. simpl.
  set (wk := prefixed (resultKey key (clock w) (inject_Z D))) in *.
  rewrite send_healthy by healthy_tac. simpl.
  unfold Redis.INCR at 1. unfold peek. rewrite Hk. unfold alive. simpl.
  destruct (Z.ltb_spec (clock w) x); [|lia].
  cbn [payload expireAt].
  rewrite as_int64_to_string by lia.
  destruct (Z.eqb_spec j (2 ^ 63 - 1)); [lia|].
  rewrite send_healthy by healthy_tac. simpl.
  unfold peek. rewrite lookup_insert_eq. unfold alive. simpl.
  destruct (Z.ltb_spec (clock w) x); [|lia]. simpl.
  destruct (Z.eqb_spec (j + 1) 1); [lia|]. simpl.
  destruct (P <? j + 1) eqn:HP; simpl.
  2:{ eexists; split; [reflexivity|]. simpl. rewrite lookup_insert_eq.
      repeat split; auto. healthy_tac. }
  destruct bd as [b|]; simpl.
  2:{ eexists; split; [reflexivity|]. simpl. rewrite lookup_insert_eq.
      repeat split; auto. healthy_tac. }
  destruct (Z.eqb_spec b 0); simpl.
  { eexists; split; [reflexivity|]. simpl. rewrite lookup_insert_eq.
      repeat split; auto. healthy_tac. }
  rewrite send_healthy by healthy_tac.
  simpl. unfold Redis.SET_PX. simpl in Hbd.
  destruct (Z.leb_spec (b * 1000) 0); [lia|]. simpl.
  eexists; split; [reflexivity|]. simpl.
  rewrite lookup_insert_ne.
  2:{ unfold wk, resultKey. rewrite floor_div_pos by assumption. simpl.
      intros E. symmetry in E. by apply block_key_ne in E. }
  rewrite lookup_insert_eq. repeat split; auto. healthy_tac.
Qed.

Lemma consume_first key P D bd w :
  0 < D -> blockDuration_valid bd -> healthy w ->
  peek (clock w) (db w) (prefixed (resultKey key (clock w) (inject_Z D))) = None ->
  exists w',
    consume key {| points := P; duration := inject_Z D; blockDuration := bd |} w =
      (Ok {| success := 1 <=? P; remainingPoints := Z.max (P - 1) 0;
             msBeforeNext := inject_Z D * 1000 |}, w') /\
    healthy w' /\ clock w' = clock w /\ raised w' = raised w /\
    db w' !! prefixed (resultKey key (clock w) (inject_Z D)) =
      Some (Entry (Z_to_string 1) (Some (clock w + D * 1000))).
Proof.
  intros HD Hbd Hh Hk.
  unfold consume, bind, try_catch, Date_now. simpl.
  rewrite exec_healthy by assumption. simpl.
  set (wk := prefixed (resultKey key (clock w) (inject_Z D))) in *.
  rewrite send_healthy by healthy_tac. simpl.
  unfold Redis.INCR at 1. rewrite Hk.
  rewrite send_healthy by healthy_tac. simpl.
  rewrite PEXPIRE_whole. rewrite send_healthy by healthy_tac. simpl.
  unfold Redis.PEXPIRE, peek. rewrite lookup_insert_eq. unfold alive. simpl.
  destruct (Z.leb_spec (D * 1000) 0); [lia|]. simpl.
  rewrite insert_insert_eq.
  destruct (P <? 1) eqn:HP; simpl.
  2:{ eexists; split; [reflexivity|]. simpl. rewrite lookup_insert_eq.
      repeat split; auto. healthy_tac. }
  destruct bd as [b|]; simpl.
  2:{ eexists; split; [reflexivity|]. simpl. rewrite lookup_insert_eq.
      repeat split; auto. healthy_tac. }
  destruct (Z.eqb_spec b 0); simpl.
  { eexists; split; [reflexivity|]. simpl. rewrite lookup_insert_eq.
      repeat split; auto. healthy_tac. }
  rewrite send_healthy by healthy_tac.
  simpl. unfold Redis.SET_PX. simpl in Hbd.
  destruct (Z.leb_spec (b * 1000) 0); [lia|]. simpl.
  eexists; split; [reflexivity|]. simpl.
  rewrite lookup_insert_ne.
  2:{ unfold wk, resultKey. rewrite floor_div_pos by assumption. simpl.
      intros E. symmetry in E. by apply block_key_ne in E. }
  rewrite lookup_insert_eq. repeat split; auto. healthy_tac.
Qed.

Lemma same_window_key key D t1 t :
  same_window D t1 t -> resultKey key t (inject_Z D) = resultKey key t1 (inject_Z D).
Proof. unfold same_window, resultKey. by intros ->. Qed.

Lemma same_window_live D t1 t :
  0 < D -> same_window D t1 t -> t < t1 + D * 1000.
Proof.
  intros HD. unfold same_window. rewrite !floor_div_pos by assumption.
  intros [= E]. apply same_window_lt in E; lia.
Qed.

Lemma INCR_count k now d c d' :
  Redis.INCR k now d = (inl c, d') -> c = hits now d k + 1.
Proof.
  unfold Redis.INCR, hits. destruct (peek now d k) as [e|]; [|by intros [= <- _]].
  destruct (Redis.as_int64 (payload e)) as [n|]; [|discriminate]. simpl.
  destruct (n =? 2 ^ 63 - 1); [discriminate|]. by intros [= <- _].
Qed.



Lemma consume_fail_open key config w :
  (raised w < raised (consume key config w).2)%nat ->
  (consume key config w).1 = Ok failOpen.
Proof.
  unfold consume, bind, try_catch, Date_now, log, ret, throw, Client.exec. simpl.
  destruct (faults w) as [|[] fs] eqn:F; simpl; auto.
  all: destruct (Client.send (Redis.INCR _) _) as [[c|e] w1] eqn:E1;
    destruct (Client.send (Redis.PTTL _) _) as [[t|e'] w2] eqn:E2; simpl; auto.
  all: apply raised_send_Ok in E1, E2; simpl in *.
  all: destruct (c =? 1); simpl.
  all: try (destruct (Client.send (PEXPIRE _ _) _) as [[x|e3] w3] eqn:E3; simpl; auto;
            apply raised_send_Ok in E3).
  all: destruct ((points config <? c) && truthy_num (blockDuration config)); simpl.
  all: try (destruct (Client.send (Redis.SET_PX _ _ _) _) as [[x'|e4] w4] eqn:E4; simpl; auto;
            apply raised_send_Ok in E4).
  all: lia.
Qed.

Lemma consume_total key config w : exists r, (consume key config w).1 = Ok r.
Proof.
  unfold consume, bind, try_catch, Date_now, log, ret. simpl.
  destruct (Client.exec _ _) as [[slots|e] w1]; simpl; [|eauto].
  match goal with |- context [let (_, _) := ?m in _] => destruct m as [[r|e] w2] end;
    simpl; eauto.
Qed.

Lemma isBlocked_total key w : exists b, (isBlocked key w).1 = Ok b.
Proof.
  unfold isBlocked, bind, try_catch, log, ret. simpl.
  destruct (Client.send _ w) as [[n|e] w1]; simpl; eauto.
Qed.

Lemma isBlocked_fail_open key w :
  (raised w < raised (isBlocked key w).2)%nat -> (isBlocked key w).1 = Ok false.
Proof.
  unfold isBlocked, bind, try_catch, log, ret. simpl.
  destruct (Client.send _ w) as [[n|e] w1] eqn:E; simpl; auto.
  apply raised_send_Ok in E. lia.
Qed.

(** C2. Fail-open.  If any backend operation during [consume] reports an
    error, [consume] returns [{success: true, remainingPoints: 1,
    msBeforeNext: 0}]; if the backend call of [isBlocked] does, [isBlocked]
    returns [false].  Neither raises. *)
Theorem rate_limiter_fails_open (key : string) (config : RateLimitConfig) (w : world) :
  ((raised w < raised (consume key config w).2)%nat ->
     (consume key config w).1
       = Ok {| success := true; remainingPoints := 1; msBeforeNext := 0 |}) /\
  ((raised w < raised (isBlocked key w).2)%nat ->
     (isBlocked key w).1 = Ok false) /\
  (exists r, (consume key config w).1 = Ok r) /\
  (exists b, (isBlocked key w).1 = Ok b).
Proof.
  split; [apply consume_fail_open|].
  split; [apply isBlocked_fail_open|].
  split; [apply consume_total|apply isBlocked_total].
Qed.

Lemma rate_limiter_fails_open_witness :
  let config := {| points := 5; duration := inject_Z 60; blockDuration := Some 60 |} in
  let w := Host.fresh 0 [false; false; false; true] in
  (raised w < raised (consume "user" config w).2)%nat /\
  (consume "user" config w).1
    = Ok {| success := true; remainingPoints := 1; msBeforeNext := 0 |} /\
  (raised (Host.fresh 0 [true]) < raised (isBlocked "user" (Host.fresh 0 [true])).2)%nat /\
  (isBlocked "user" (Host.fresh 0 [true])).1 = Ok false.
Proof.
  intros config w.
  assert (H1 : (raised w < raised (consume "user" config w).2)%nat) by (vm_compute; lia).
  assert (H2 : (raised (Host.fresh 0 [true]) < raised (isBlocked "user" (Host.fresh 0 [true])).2)%nat)
    by (vm_compute; lia).
  split; [exact H1|].
  split; [exact (proj1 (rate_limiter_fails_open "user" config w) H1)|].
  split; [exact H2|].
  exact (proj1 (proj2 (rate_limiter_fails_open "user" config (Host.fresh 0 [true]))) H2).
Defined.

(** ** Cache layer *)

Lemma delete_fails_closed key ns w :
  (raised w < raised (CacheService.delete key ns w).2)%nat ->
  (CacheService.delete key ns w).1 = Ok false.
Proof.
  unfold CacheService.delete, bind, try_catch, log, ret. simpl.
  destruct (Client.send _ w) as [[n|e] w1] eqn:E; simpl; auto.
  apply raised_send_Ok in E. lia.
Qed.

Lemma clear_rethrows ns w :
  (raised w < raised (CacheService.clear ns w).2)%nat ->
  exists e, (CacheService.clear ns w).1 = Throw e /\ backend_error e.
Proof.
  unfold CacheService.clear, bind, try_catch, log, ret, throw.
  destruct ns as [ns|]; [destruct (truthy ns)|]; simpl.
  - destruct (Client.send (Redis.KEYS _) w) as [[keys|e] w1] eqn:E1; simpl.
    + pose proof (raised_send_Ok _ _ _ _ E1).
      destruct (0 <? length keys)%nat; simpl; [|lia].
      destruct (Client.send (Redis.DEL keys) w1) as [[n|e] w2] eqn:E2; simpl.
      * apply raised_send_Ok in E2. lia.
      * intros _. exists e. split; [reflexivity|]. by apply send_Throw_backend in E2.
    + intros _. exists e. split; [reflexivity|]. by apply send_Throw_backend in E1.
  - destruct (Client.send Redis.FLUSHDB w) as [[u|e] w1] eqn:E1; simpl.
    + apply raised_send_Ok in E1. lia.
    + intros _. exists e. split; [reflexivity|]. by apply send_Throw_backend in E1.
  - destruct (Client.send Redis.FLUSHDB w) as [[u|e] w1] eqn:E1; simpl.
    + apply raised_send_Ok in E1. lia.
    + intros _. exists e. split; [reflexivity|]. by apply send_Throw_backend in E1.
Qed.

(** C3, as the code has it.  When the backend reports an error, [delete]
    returns [false] and does not raise; [clear] logs the error and raises
    it again to its caller. *)
Theorem delete_false_clear_rethrows (key : string) (ns : option string) (w : world) :
  ((raised w < raised (CacheService.delete key ns w).2)%nat ->
     (CacheService.delete key ns w).1 = Ok false) /\
  ((raised w < raised (CacheService.clear ns w).2)%nat ->
     exists e, (CacheService.clear ns w).1 = Throw e /\ backend_error e).
Proof.
  split; [apply delete_fails_closed|apply clear_rethrows].
Qed.

Lemma delete_false_clear_rethrows_witness :
  let w := Host.fresh 0 [true] in
  (raised w < raised (CacheService.delete "task:1" None w).2)%nat /\
  (CacheService.delete "task:1" None w).1 = Ok false /\
  (raised w < raised (CacheService.clear (Some "tasks") w).2)%nat /\
  exists e, (CacheService.clear (Some "tasks") w).1 = Throw e /\ backend_error e.
Proof.
  intros w.
  assert (H1 : (raised w < raised (CacheService.delete "task:1" None w).2)%nat)
    by (vm_compute; lia).
  assert (H2 : (raised w < raised (CacheService.clear (Some "tasks") w).2)%nat)
    by (vm_compute; lia).
  split; [exact H1|].
  split; [exact (proj1 (delete_false_clear_rethrows "task:1" None w) H1)|].
  split; [exact H2|].
  exact (proj2 (delete_false_clear_rethrows "task:1" (Some "tasks") w) H2).
Defined.

(** C3, as stated, fails for [clear]: with the connection lost, the
    backend reports an error and [clear] raises it. *)
Lemma clear_is_not_silent :
  let w := Host.fresh 0 [true] in
  (raised w < raised (CacheService.clear (Some "tasks") w).2)%nat /\
  (CacheService.clear (Some "tasks") w).1 = Throw ConnectionError /\
  (CacheService.clear (Some "tasks") w).1 <> Ok tt.
Proof.
  vm_compute. split; [lia|]. split; [reflexivity|discriminate].
Qed.

(** Once the entries are serialised nothing makes [mset] raise:
    [pipeline.exec()] always resolves, and [mset] does not read the
    slots. *)
Lemma mset_returns (J : Json) kvs opts w :
  (CacheService.mset kvs opts w).1 = Ok tt.
Proof.
  unfold CacheService.mset, bind, try_catch, log, ret, throw, Client.pipeline_exec. simpl.
  destruct (faults w) as [|[] fs]; simpl; [|reflexivity|].
  all: by destruct (Client.run_queue _ _) as [rs w1].
Qed.

(** C4, evaluated.  With [ttl: 0] the server rejects every SET of the
    pipeline, yet [mset] returns normally and nothing is stored, where
    [set] with the same options raises; and when the first of two queued
    commands fails and the second does not, [mset] returns normally with
    only the second entry stored. *)
Theorem mset_swallows_command_errors :
  let w := Host.fresh 0 [] in
  let opts := {| CacheService.ttl := Some 0; CacheService.namespace := None |} in
  let batch := [("a", Host.VInt 1); ("b", Host.VInt 2)] in
  let after := @CacheService.mset Host.json batch opts w in
  after.1 = Ok tt /\ raised after.2 = 2%nat /\ db after.2 = ∅ /\
  (@CacheService.set Host.json "a" (Host.VInt 1) opts w).1
    = Throw (ReplyError Redis.InvalidExpireTime) /\
  let w' := Host.fresh 0 [false; true; false] in
  let opts' := {| CacheService.ttl := None; CacheService.namespace := None |} in
  let after' := @CacheService.mset Host.json batch opts' w' in
  after'.1 = Ok tt /\ raised after'.2 = 1%nat /\
  db after'.2 = {[ "b" := Entry "2" (Some 300000) ]}.
Proof.
  vm_compute. repeat split; reflexivity.
Qed.

Section Reads.
Context (J : Json).

Lemma parse_all_world (values : list (option string)) (w : world) :
  (CacheService.parse_all values w).2 = w.
Proof.
  induction values as [|v vs IH]; simpl; [reflexivity|].
  unfold bind, ret, CacheService.parse, throw in *.
  destruct v as [s|]; [destruct (truthy s); [destruct (JSON_parse s)|]|]; simpl; auto.
  all: destruct (CacheService.parse_all vs w) as [[xs|e] w']; simpl in *; auto.
Qed.

Lemma parse_all_length (values : list (option string)) (w : world) vs :
  (CacheService.parse_all values w).1 = Ok vs -> length vs = length values.
Proof.
  revert vs. induction values as [|v rest IH]; simpl; intros vs.
  - by intros [= <-].
  - unfold bind, ret, CacheService.parse, throw in *.
    destruct v as [s|]; [destruct (truthy s); [destruct (JSON_parse s)|]|]; simpl;
      try discriminate.
    all: destruct (CacheService.parse_all rest w) as [[xs|e] w']; simpl in *;
      try discriminate.
    all: intros [= <-]; simpl; f_equal; by apply IH.
Qed.

Lemma parse_all_stored (now : Z) (d : keyspace) (ks : list string) (w : world) :
  Forall (CacheService.holds_json now d) ks ->
  (CacheService.parse_all ((fun k => payload <$> peek now d k) <$> ks) w).1
    = Ok (CacheService.deserialized now d <$> ks).
Proof.
  induction ks as [|k ks IH]; intros Hks; simpl; [reflexivity|].
  inversion Hks as [|? ? Hk Hks']; subst. specialize (IH Hks').
  unfold bind, ret, CacheService.parse, throw, CacheService.deserialized in *.
  unfold CacheService.holds_json in Hk.
  destruct (peek now d k) as [e|] eqn:Ek; simpl.
  - destruct (Hk e eq_refl) as [Ht [v Hv]]. rewrite Ht, Hv. simpl in IH |- *.
    destruct (CacheService.parse_all _ w) as [[xs|e'] w']; simpl in *;
      [injection IH as ->; reflexivity|discriminate].
  - simpl in IH |- *.
    destruct (CacheService.parse_all _ w) as [[xs|e'] w']; simpl in *;
      [injection IH as ->; reflexivity|discriminate].
Qed.

Lemma MGET_reply ks now d vals d' :
  Redis.MGET ks now d = (inl vals, d') ->
  ks <> [] /\ vals = (fun k => payload <$> peek now d k) <$> ks.
Proof.
  unfold Redis.MGET. destruct ks; [discriminate|]. by intros [= <- _].
Qed.

Lemma mget_length keys ns w :
  exists vs, (CacheService.mget keys ns w).1 = Ok vs /\ length vs = length keys.
Proof.
  unfold CacheService.mget, bind, try_catch, log, ret. simpl.
  destruct (Client.send _ w) as [[values|e] w1] eqn:E; simpl.
  - destruct (CacheService.parse_all values w1) as [[vs|e] w2] eqn:E2; simpl.
    + exists vs. split; [reflexivity|].
      pose proof (parse_all_length values w1 vs) as Hl. rewrite E2 in Hl.
      rewrite (Hl eq_refl).
      apply send_inv in E as [(a & [= <-] & E & _)|(? & ? & _)]; [|discriminate].
      apply MGET_reply in E as [_ ->]. by rewrite !length_fmap.
    + eexists; split; [reflexivity|]. by rewrite length_replicate.
  - eexists; split; [reflexivity|]. by rewrite length_replicate.
Qed.

Lemma mget_degrades keys ns w :
  (raised w < raised (CacheService.mget keys ns w).2)%nat ->
  (CacheService.mget keys ns w).1 = Ok (replicate (length keys) null).
Proof.
  unfold CacheService.mget, bind, try_catch, log, ret. simpl.
  destruct (Client.send _ w) as [[values|e] w1] eqn:E; simpl; auto.
  pose proof (parse_all_world values w1) as Hw.
  destruct (CacheService.parse_all values w1) as [[vs|e] w2] eqn:E2; simpl in *; auto.
  subst w2. apply raised_send_Ok in E. lia.
Qed.

Lemma mget_values keys ns w :
  let finalKeys := (fun k => CacheService.getKey k ns) <$> keys in
  raised (CacheService.mget keys ns w).2 = raised w ->
  Forall (CacheService.holds_json (clock w) (db w)) finalKeys ->
  (CacheService.mget keys ns w).1
    = Ok (CacheService.deserialized (clock w) (db w) <$> finalKeys).
Proof.
  intros finalKeys. unfold CacheService.mget, bind, try_catch, log, ret. simpl.
  fold finalKeys.
  destruct (Client.send _ w) as [[values|e] w1] eqn:E; simpl.
  - intros _ Hks.
    apply send_inv in E as [(a & [= <-] & E & _)|(? & ? & _)]; [|discriminate].
    apply MGET_reply in E as [_ ->].
    pose proof (parse_all_stored (clock w) (db w) finalKeys w1 Hks) as Hp.
    destruct (CacheService.parse_all _ w1) as [[vs|e] w2]; simpl in *; congruence.
  - apply raised_send_Throw in E. lia.
Qed.

End Reads.

Lemma mset_then_mget (w : world) :
  healthy w -> peek (clock w) (db w) "c" = None ->
  let opts := {| CacheService.ttl := None; CacheService.namespace := None |} in
  ((@CacheService.mset Host.json [("a", Host.VInt 1); ("b", Host.VInt 2)] opts ;;;
    @CacheService.mget Host.json ["a"; "b"; "c"] None) w).1
    = Ok [Host.VInt 1; Host.VInt 2; Host.VNull].
Proof.
  intros Hh Hc opts.
  unfold CacheService.mset, CacheService.mget, bind, try_catch, log, ret. simpl.
  rewrite pipeline_exec_healthy by assumption. simpl.
  rewrite send_healthy by healthy_tac. simpl.
  rewrite send_healthy by healthy_tac. simpl.
  rewrite send_healthy by healthy_tac. simpl.
  unfold peek at 1. rewrite lookup_insert_ne by discriminate. rewrite lookup_insert_eq.
  unfold peek at 1. rewrite lookup_insert_eq.
  unfold peek at 1. rewrite !lookup_insert_ne by discriminate.
  unfold peek in Hc. rewrite Hc.
  unfold alive. simpl. unfold CacheService.DEFAULT_TTL.
  destruct (Z.ltb_spec (clock w) (clock w + 300 * 1000)); [|lia].
  reflexivity.
Qed.

(** C5. [mget] answers position by position.  It never raises and returns
    as many values as it was given keys; if the backend call fails, every
    position is [null]; if it does not, and the texts stored under the
    requested keys are JSON, position [i] holds the deserialized value
    stored under key [i], or [null] if there is none.  In particular
    [mset({a:1,b:2})] followed by [mget([a,b,c])], with nothing stored
    under [c], returns [[1,2,null]]. *)
Theorem mget_aligned (J : Json) (keys : list string) (ns : option string) (w w0 : world) :
  let finalKeys := (fun k => CacheService.getKey k ns) <$> keys in
  let opts := {| CacheService.ttl := None; CacheService.namespace := None |} in
  (exists vs, (CacheService.mget keys ns w).1 = Ok vs /\ length vs = length keys) /\
  ((raised w < raised (CacheService.mget keys ns w).2)%nat ->
     (CacheService.mget keys ns w).1 = Ok (replicate (length keys) null)) /\
  (raised (CacheService.mget keys ns w).2 = raised w ->
   Forall (CacheService.holds_json (clock w) (db w)) finalKeys ->
     (CacheService.mget keys ns w).1
       = Ok (CacheService.deserialized (clock w) (db w) <$> finalKeys)) /\
  (healthy w0 -> peek (clock w0) (db w0) "c" = None ->
     ((@CacheService.mset Host.json [("a", Host.VInt 1); ("b", Host.VInt 2)] opts ;;;
       @CacheService.mget Host.json ["a"; "b"; "c"] None) w0).1
       = Ok [Host.VInt 1; Host.VInt 2; Host.VNull]).
Proof.
  intros finalKeys opts.
  split; [apply mget_length|].
  split; [apply mget_degrades|].
  split; [apply mget_values|apply mset_then_mget].
Qed.

Lemma mget_aligned_witness :
  let w := Host.fresh 0 [true] in
  let w1 := World {[ "ns:a" := Entry "7" None ]} 5 [] 0 in
  (raised w < raised (@CacheService.mget Host.json ["a"; "b"] None w).2)%nat /\
  (@CacheService.mget Host.json ["a"; "b"] None w).1 = Ok [Host.VNull; Host.VNull] /\
  (@CacheService.mget Host.json ["a"; "b"] (Some "ns") w1).1 = Ok [Host.VInt 7; Host.VNull] /\
  ((@CacheService.mset Host.json [("a", Host.VInt 1); ("b", Host.VInt 2)]
      {| CacheService.ttl := None; CacheService.namespace := None |} ;;;
    @CacheService.mget Host.json ["a"; "b"; "c"] None) (Host.fresh 0 [])).1
    = Ok [Host.VInt 1; Host.VInt 2; Host.VNull].
Proof.
  intros w w1.
  assert (H1 : (raised w < raised (@CacheService.mget Host.json ["a"; "b"] None w).2)%nat)
    by (vm_compute; lia).
  split; [exact H1|].
  split.
  { exact (proj1 (proj2 (mget_aligned Host.json ["a"; "b"] None w w)) H1). }
  split.
  { refine (proj1 (proj2 (proj2 (mget_aligned Host.json ["a"; "b"] (Some "ns") w1 w1))) _ _).
    - reflexivity.
    - simpl. constructor; [|constructor; [|constructor]]; intros e He; vm_compute in He.
      + injection He as <-. split; [reflexivity|eexists; reflexivity].
      + discriminate. }
  refine (proj2 (proj2 (proj2 (mget_aligned Host.json [] None w (Host.fresh 0 [])))) _ _).
  - constructor.
  - reflexivity.
Defined.

(** C6, as the code has it.  On a healthy backend, for every key and
    every value [V] that JSON serialisation preserves
    ([JSON.stringify(V)] is a non-empty text that [JSON.parse] maps back
    to [V]), [set(key, V, ttl=60)] followed by [get(key)] with the same
    namespace returns [V] as long as fewer than 60 seconds have passed,
    and [null] once 60 seconds have passed. *)
Theorem cache_round_trip (J : Json) (key : string) (V : value) (ns : option string)
    (w : world) (dt : Z) :
  let written :=
    CacheService.set key V {| CacheService.ttl := Some 60; CacheService.namespace := ns |} w in
  healthy w ->
  JSON_parse (JSON_stringify V) = Some V ->
  truthy (JSON_stringify V) = true ->
  written.1 = Ok tt /\
  (0 <= dt < 60000 ->
     (CacheService.get key ns (at_time (clock w + dt) written.2)).1 = Ok V) /\
  (60000 <= dt ->
     (CacheService.get key ns (at_time (clock w + dt) written.2)).1 = Ok null).
Proof.
  intros written Hh Hrt Hne. subst written.
  unfold CacheService.set, CacheService.get, bind, try_catch, log, ret, throw. simpl.
  rewrite send_healthy by assumption. simpl.
  split; [reflexivity|].
  split; intros Hdt.
  - rewrite send_healthy by healthy_tac. simpl.
    unfold peek. rewrite lookup_insert_eq. unfold alive. simpl.
    destruct (Z.ltb_spec (clock w + dt) (clock w + 60 * 1000)); [|lia]. simpl.
    destruct (JSON_stringify V) as [|c s]; [discriminate|]. simpl.
    unfold CacheService.parse. by rewrite Hrt.
  - rewrite send_healthy by healthy_tac. simpl.
    unfold peek. rewrite lookup_insert_eq. unfold alive. simpl.
    destruct (Z.ltb_spec (clock w + dt) (clock w + 60 * 1000)); [lia|]. reflexivity.
Qed.

Lemma cache_round_trip_witness :
  let w := Host.fresh 0 [] in
  let written :=
    @CacheService.set Host.json "task:1" (Host.VInt 42)
      {| CacheService.ttl := Some 60; CacheService.namespace := Some "tasks" |} w in
  written.1 = Ok tt /\
  (@CacheService.get Host.json "task:1" (Some "tasks") (at_time 0 written.2)).1
    = Ok (Host.VInt 42) /\
  (@CacheService.get Host.json "task:1" (Some "tasks") (at_time 60000 written.2)).1
    = Ok Host.VNull.
Proof.
  intros w written.
  pose proof (cache_round_trip Host.json "task:1" (Host.VInt 42) (Some "tasks") w 0
                ltac:(constructor) eq_refl eq_refl) as (H1 & H2 & _).
  pose proof (cache_round_trip Host.json "task:1" (Host.VInt 42) (Some "tasks") w 60000
                ltac:(constructor) eq_refl eq_refl) as (_ & _ & H3).
  split; [exact H1|]. split; [exact (H2 ltac:(lia))|exact (H3 ltac:(lia))].
Defined.

(** C6, as stated, fails: [NaN] is written as [null] and read back as
    [null]. *)
Lemma cache_round_trip_loses_NaN :
  let w := Host.fresh 0 [] in
  ((@CacheService.set Host.json "k" Host.VNaN
      {| CacheService.ttl := Some 60; CacheService.namespace := None |} ;;;
    @CacheService.get Host.json "k" None) w).1 = Ok Host.VNull /\
  Host.VNull <> Host.VNaN.
Proof.
  split; [vm_compute; reflexivity|discriminate].
Qed.

(** ** Namespace invalidation *)

Lemma tokens_plain_char fuel c rest :
  Glob.plain c = true ->
  Glob.tokens (S fuel) (String c rest) = Glob.Lit c :: Glob.tokens fuel rest.
Proof.
  intros Hc. destruct c as [[] [] [] [] [] [] [] []]; try discriminate Hc; reflexivity.
Qed.

Lemma tokens_plain p : forall n rest,
  Glob.all_plain p = true ->
  Glob.tokens (String.length p + n) (p +:+ rest) = Glob.literals p ++ Glob.tokens n rest.
Proof.
  induction p as [|c p IH]; intros n rest Hp; [reflexivity|].
  simpl in Hp. apply andb_true_iff in Hp as [Hc Hp].
  change (String c p +:+ rest) with (String c (p +:+ rest)).
  change (String.length (String c p) + n)%nat with (S (String.length p + n)).
  rewrite tokens_plain_char by assumption. simpl. by rewrite IH.
Qed.

Lemma matches_star_end s : Glob.matches [Glob.Star] s = true.
Proof.
  induction s as [|c s IH]; [reflexivity|].
  simpl in *. by rewrite IH.
Qed.

Lemma matches_literal_prefix p : forall s,
  Glob.matches (Glob.literals p ++ [Glob.Star]) s = String.prefix p s.
Proof.
  induction p as [|c p IH]; intros s.
  - rewrite matches_star_end. by destruct s.
  - destruct s as [|d s]; [reflexivity|].
    change (Glob.matches (Glob.literals (String c p) ++ [Glob.Star]) (String d s))
      with (Ascii.eqb c d && Glob.matches (Glob.literals p ++ [Glob.Star]) s).
    rewrite IH. simpl. destruct (ascii_dec c d) as [->|Hne].
    + by rewrite Ascii.eqb_refl.
    + apply Ascii.eqb_neq in Hne. by rewrite Hne.
Qed.

Lemma length_app_string (a b : string) :
  String.length (a +:+ b) = (String.length a + String.length b)%nat.
Proof. induction a as [|c a IH]; simpl; [reflexivity|]. by rewrite <- IH. Qed.

Lemma glob_prefix p k :
  Glob.all_plain p = true -> Glob.glob (p +:+ "*") k = String.prefix p k.
Proof.
  intros Hp. unfold Glob.glob.
  rewrite length_app_string.
  change (S (String.length p + String.length "*")) with (S (String.length p + 1)).
  replace (S (String.length p + 1)) with (String.length p + 2)%nat by lia.
  rewrite tokens_plain by assumption. apply matches_literal_prefix.
Qed.

Lemma KEYS_reply pattern now d ks d' :
  Redis.KEYS pattern now d = (inl ks, d') ->
  d' = d /\
  forall k, k ∈ ks <-> Glob.glob pattern k = true /\ present now d k = true.
Proof.
  unfold Redis.KEYS. intros [= <- <-]. split; [reflexivity|]. intros k.
  rewrite list_elem_of_filter, list_elem_of_fmap. unfold present, peek.
  split.
  - intros (Hg & [k' e] & -> & Hin). split; [exact Hg|].
    apply elem_of_map_to_list in Hin. apply map_lookup_filter_Some in Hin as [Hk Ha].
    simpl in *. by rewrite Hk, Ha.
  - intros (Hg & Hp). split; [exact Hg|].
    destruct (d !! k) as [e|] eqn:Hk; [|discriminate].
    destruct (alive now e) eqn:Ha; [|discriminate].
    exists (k, e). split; [reflexivity|].
    apply elem_of_map_to_list. apply map_lookup_filter_Some. auto.
Qed.

Lemma del_keys_lookup now ks : forall d k,
  (Redis.del_keys now ks d).2 !! k = if decide (k ∈ ks) then None else d !! k.
Proof.
  induction ks as [|k0 ks IH]; intros d k.
  - rewrite decide_False by (by intros ?%elem_of_nil). reflexivity.
  - specialize (IH (base.delete k0 d) k). cbn [Redis.del_keys].
    destruct (Redis.del_keys now ks (base.delete k0 d)) as [n d'] eqn:E.
    cbn [snd] in *. rewrite IH. destruct (decide (k = k0)) as [->|Hne].
    + rewrite lookup_delete_eq. rewrite (decide_True (P := k0 ∈ k0 :: ks)) by left.
      by case_decide.
    + rewrite lookup_delete_ne by congruence.
      destruct (decide (k ∈ ks)) as [Hin|Hin].
      * by rewrite decide_True by by right.
      * rewrite decide_False; [reflexivity|].
        intros [?|?]%elem_of_cons; congruence.
Qed.

Lemma clear_namespace ns w :
  healthy w -> truthy ns = true -> Glob.all_plain (ns +:+ ":") = true ->
  let after := CacheService.clear (Some ns) w in
  after.1 = Ok tt /\ clock after.2 = clock w /\
  (forall k, String.prefix (ns +:+ ":") k = true -> peek (clock w) (db after.2) k = None) /\
  (forall k, String.prefix (ns +:+ ":") k = false -> db after.2 !! k = db w !! k).
Proof.
  intros Hh Hns Hp. unfold CacheService.clear, bind, try_catch, log, ret, throw.
  rewrite Hns. rewrite send_healthy by assumption.
  destruct (Redis.KEYS _ (clock w) (db w)) as [[ks|e] d1] eqn:EK; [|discriminate EK].
  apply KEYS_reply in EK as [-> Hks].
  assert (Hpat : forall k, Glob.glob (ns +:+ ":*") k = String.prefix (ns +:+ ":") k).
  { intros k. rewrite <- glob_prefix by assumption. f_equal.
    clear. induction ns as [|c ns IH]; [reflexivity|]. simpl. unfold String.app in *. simpl.
    by rewrite IH. }
  destruct (0 <? length ks)%nat eqn:El; simpl.
  - rewrite send_healthy by healthy_tac. simpl.
    unfold Redis.DEL. destruct ks as [|k0 ks']; [discriminate El|].
    pose proof (del_keys_lookup (clock w) (k0 :: ks') (db w)) as Hdel.
    destruct (Redis.del_keys (clock w) (k0 :: ks') (db w)) as [n d2]. simpl in *.
    split; [reflexivity|]. split; [reflexivity|]. split.
    + intros k Hk. unfold peek. rewrite Hdel.
      case_decide as Hin; [reflexivity|].
      destruct (db w !! k) as [e|] eqn:Ek; [|reflexivity].
      destruct (alive (clock w) e) eqn:Ha; [|reflexivity].
      exfalso. apply Hin, Hks. rewrite Hpat. split; [exact Hk|].
      unfold present, peek. by rewrite Ek, Ha.
    + intros k Hk. rewrite Hdel. case_decide as Hin; [|reflexivity].
      apply Hks in Hin as [Hg _]. rewrite Hpat in Hg. congruence.
  - simpl. split; [reflexivity|]. split; [reflexivity|]. split; [|reflexivity].
    intros k Hk. destruct (peek (clock w) (db w) k) as [e|] eqn:Ek; [|reflexivity].
    exfalso. assert (Hin : k ∈ ks).
    { apply Hks. rewrite Hpat. split; [exact Hk|]. unfold present. by rewrite Ek. }
    destruct ks; [by inversion Hin|discriminate El].
Qed.

Lemma clear_everything ns w :
  healthy w -> default true (negb <$> (truthy <$> ns)) = true ->
  let after := CacheService.clear ns w in
  after.1 = Ok tt /\ db after.2 = ∅.
Proof.
  intros Hh Hns. unfold CacheService.clear, bind, try_catch, log, ret, throw.
  destruct ns as [ns|]; simpl in *.
  - destruct (truthy ns); [discriminate|]. rewrite send_healthy by assumption. by simpl.
  - rewrite send_healthy by assumption. by simpl.
Qed.

(** C8. Namespace-scoped clear.  On a healthy backend, for every state
    of the store, [clear("tasks")] leaves no key with prefix [tasks:] and
    leaves the entry of every other key as it was; [clear] with no
    namespace empties the store. *)
Theorem clear_tasks_frame (w : world) :
  healthy w ->
  let after := CacheService.clear (Some "tasks") w in
  let flushed := CacheService.clear None w in
  after.1 = Ok tt /\
  (forall k, String.prefix "tasks:" k = true -> peek (clock w) (db after.2) k = None) /\
  (forall k, String.prefix "tasks:" k = false -> db after.2 !! k = db w !! k) /\
  flushed.1 = Ok tt /\ db flushed.2 = ∅.
Proof.
  intros Hh after flushed.
  destruct (clear_namespace "tasks" w Hh eq_refl eq_refl) as (H1 & _ & H2 & H3).
  destruct (clear_everything None w Hh eq_refl) as (H4 & H5).
  auto.
Qed.

Lemma clear_tasks_frame_witness :
  let w := World {[ "tasks:{}" := Entry "[1]" (Some 60000);
                    "task:1" := Entry "1" (Some 300000);
                    "users:7" := Entry "7" None ]} 1000 [] 0 in
  let after := CacheService.clear (Some "tasks") w in
  after.1 = Ok tt /\
  peek 1000 (db after.2) "tasks:{}" = None /\
  db after.2 !! "task:1" = Some (Entry "1" (Some 300000)) /\
  db after.2 !! "users:7" = Some (Entry "7" None) /\
  db (CacheService.clear None w).2 = ∅.
Proof.
  intros w after.
  destruct (clear_tasks_frame w ltac:(constructor)) as (H1 & H2 & H3 & _ & H5).
  split; [exact H1|].
  split; [exact (H2 "tasks:{}" eq_refl)|].
  split; [exact (H3 "task:1" eq_refl)|].
  split; [exact (H3 "users:7" eq_refl)|exact H5].
Defined.

(** ** Block records *)

Lemma consume_writes_block key config b w r w' :
  blockDuration config = Some b -> b <> 0 ->
  consume key config w = (Ok r, w') -> raised w' = raised w ->
  points config
    < hits (clock w) (db w) (prefixed (resultKey key (clock w) (duration config))) + 1 ->
  db w' !! prefixed (key +:+ ":blocked") = Some (Entry "1" (Some (clock w + b * 1000))) /\
  0 < b /\ success r = false.
Proof.
  intros Hb Hb0.
  unfold consume, bind, try_catch, Date_now, log, ret, throw, Client.exec. simpl.
  set (wk := prefixed (resultKey key (clock w) (duration config))).
  destruct (faults w) as [|[] fs] eqn:F; simpl.
  2:{ intros [= <- <-]. simpl. lia. }
  all: destruct (Client.send (Redis.INCR _) _) as [[c|e] w1] eqn:E1;
    destruct (Client.send (Redis.PTTL _) _) as [[t|e'] w2] eqn:E2; simpl.
  all: try (apply raised_send_Throw in E1); try (apply raised_send_Throw in E2);
       try (pose proof (raised_send_Ok _ _ _ _ E1)); try (pose proof (raised_send_Ok _ _ _ _ E2));
       simpl in *.
  all: try (intros [= <- <-]; simpl; lia).
  all: apply send_Ok_inv in E1 as (E1 & Hc1 & _); apply send_Ok_inv in E2 as (_ & Hc2 & _);
       simpl in E1, Hc1; apply INCR_count in E1; subst c.
  all: destruct (_ =? 1) eqn:E1'; simpl.
  all: try (destruct (Client.send (PEXPIRE _ _) _) as [[x|e3] w3] eqn:E3; simpl;
            [pose proof (raised_send_Ok _ _ _ _ E3); apply send_Ok_inv in E3 as (_ & Hc3 & _)
            |apply raised_send_Throw in E3]).
  all: try (intros [= <- <-]; simpl; lia).
  all: intros Hret Hr HP; revert Hret.
  all: destruct (Z.ltb_spec (points config) (hits (clock w) (db w) wk + 1)); [|lia].
  all: rewrite Hb; simpl.
  all: destruct (Z.eqb_spec b 0); [lia|]; simpl.
  all: destruct (Client.send (Redis.SET_PX _ _ _) _) as [[x'|e4] w4] eqn:E4; simpl;
       [pose proof (raised_send_Ok _ _ _ _ E4)|apply raised_send_Throw in E4].
  all: intros [= <- <-]; simpl in *; try lia.
  all: apply send_Ok_inv in E4 as (E4 & _ & _); unfold Redis.SET_PX in E4.
  all: destruct (Z.leb_spec (b * 1000) 0); [discriminate|].
  all: injection E4 as _ E4; rewrite <- E4, lookup_insert_eq.
  all: split; [do 3 f_equal; lia|split; [lia|apply Z.leb_gt; lia]].
Qed.

Lemma isBlocked_healthy key w :
  healthy w ->
  (isBlocked key w).1 = Ok (present (clock w) (db w) (prefixed (key +:+ ":blocked"))).
Proof.
  intros Hh. unfold isBlocked, bind, try_catch, log, ret.
  rewrite send_healthy by assumption. simpl.
  by destruct (present _ _ _).
Qed.



(** ** The request gate *)

Lemma consume_returns key config w :
  exists r w', consume key config w = (Ok r, w').
Proof.
  destruct (consume_total key config w) as [r Hr].
  destruct (consume key config w) as [o w'] eqn:E. simpl in Hr. subst o. eauto.
Qed.

Lemma isBlocked_returns key w :
  exists b w', isBlocked key w = (Ok b, w').
Proof.
  destruct (isBlocked_total key w) as [b Hb].
  destruct (isBlocked key w) as [o w'] eqn:E. simpl in Hb. subst o. eauto.
Qed.

(** C9. Gate decision.  Without a rate-limit configuration the gate
    allows the request and touches nothing.  With one, it first asks
    [isBlocked] and, if blocked, rejects with status 429 and no retry
    hint; otherwise it calls [consume], sets the limit, remaining and
    reset headers, and allows the request when [consume] succeeded, or
    rejects with status 429 and [retryAfter = ceil(msBeforeNext / 1000)]
    when it did not. *)
Theorem gate_decision (sha256_hex : string -> string) (req : RateLimitGuard.request)
    (metadata : option RateLimitGuard.RateLimitOptions) (w : world) :
  (RateLimitGuard.getRateLimitConfig metadata = None <-> metadata = None) /\
  match RateLimitGuard.getRateLimitConfig metadata with
  | None =>
      RateLimitGuard.canActivate sha256_hex req metadata w
        = (Ok {| RateLimitGuard.headers := None; RateLimitGuard.result := inl true |}, w)
  | Some rateLimit =>
      let key := RateLimitGuard.generateKey sha256_hex req in
      exists (blocked : bool) (w1 : world),
        isBlocked key w = (Ok blocked, w1) /\
        if blocked then
          RateLimitGuard.canActivate sha256_hex req metadata w
            = (Ok {| RateLimitGuard.headers := None;
                     RateLimitGuard.result :=
                       inr {| RateLimitGuard.statusCode := 429;
                              RateLimitGuard.retryAfter := None |} |}, w1)
        else
          exists (r : ConsumeResult) (w2 : world),
            consume key {| points := RateLimitGuard.limit' rateLimit;
                           duration := inject_Z (RateLimitGuard.windowMs' rateLimit) / 1000;
                           blockDuration := Some 60 |} w1 = (Ok r, w2) /\
            RateLimitGuard.canActivate sha256_hex req metadata w
              = (Ok {| RateLimitGuard.headers :=
                         Some {| RateLimitGuard.X_RateLimit_Limit := RateLimitGuard.limit' rateLimit;
                                 RateLimitGuard.X_RateLimit_Remaining := remainingPoints r;
                                 RateLimitGuard.X_RateLimit_Reset :=
                                   inject_Z (clock w2) + msBeforeNext r |};
                       RateLimitGuard.result :=
                         if success r then inl true
                         else inr {| RateLimitGuard.statusCode := 429;
                                     RateLimitGuard.retryAfter :=
                                       Some (Qceiling (msBeforeNext r / 1000)) |} |}, w2)
  end.
Proof.
  split.
  { destruct metadata; simpl; split; congruence. }
  unfold RateLimitGuard.canActivate.
  destruct (RateLimitGuard.getRateLimitConfig metadata) as [rateLimit|]; [|reflexivity].
  cbv zeta.
  destruct (isBlocked_returns (RateLimitGuard.generateKey sha256_hex req) w) as (b & w1 & Eb).
  exists b, w1. split; [exact Eb|].
  destruct b; [unfold bind at 1; by rewrite Eb|].
  match goal with |- context [consume ?k ?c w1] =>
    destruct (consume_returns k c w1) as (r & w2 & Er) end.
  exists r, w2. split; [exact Er|].
  unfold bind, Date_now, ret. rewrite Eb, Er.
  destruct (success r); reflexivity.
Qed.

Lemma isBlocked_inv key w b w1 :
  isBlocked key w = (Ok b, w1) ->
  (raised w1 = raised w /\ db w1 = db w /\ clock w1 = clock w /\
   b = present (clock w) (db w) (prefixed (key +:+ ":blocked"))) \/
  (raised w1 = S (raised w) /\ b = false).
Proof.
  unfold isBlocked, bind, try_catch, log, ret.
  destruct (Client.send _ w) as [[n|e] w0] eqn:E; simpl.
  - intros [= <- <-]. left. apply send_Ok_inv in E as (E & Hc & Hr).
    unfold Redis.EXISTS in E. injection E as <- <-.
    repeat split; auto. by destruct (present _ _ _).
  - intros [= <- <-]. right. apply raised_send_Throw in E. auto.
Qed.

Lemma consume_raised_le key config w :
  (raised w <= raised (consume key config w).2)%nat.
Proof.
  unfold consume, bind, try_catch, Date_now, log, ret, throw, Client.exec. simpl.
  destruct (faults w) as [|[] fs] eqn:F; simpl; auto.
  all: destruct (Client.send (Redis.INCR _) _) as [[c|e] w1] eqn:E1;
    destruct (Client.send (Redis.PTTL _) _) as [[t|e'] w2] eqn:E2; simpl.
  all: apply send_raised_le in E1, E2; simpl in *; try lia.
  all: destruct (c =? 1); simpl.
  all: try (destruct (Client.send (PEXPIRE _ _) _) as [[x|e3] w3] eqn:E3; simpl;
            apply send_raised_le in E3; try lia).
  all: destruct ((points config <? c) && truthy_num (blockDuration config)); simpl; try lia.
  all: destruct (Client.send (Redis.SET_PX _ _ _) _) as [[x'|e4] w4] eqn:E4; simpl;
       apply send_raised_le in E4; lia.
Qed.

(** C10. The gate's block duration.  For every request on a route with
    a rate-limit configuration, whatever that configuration declares,
    the gate calls [consume] with [blockDuration: 60].  So when the key
    is not blocked on entry, the backend reports no error and the count
    seen by [consume] exceeds the limit, the gate leaves under
    [key:blocked] a record that expires 60 seconds after the call, and
    rejects the request. *)
Theorem gate_blocks_for_60s (sha256_hex : string -> string) (req : RateLimitGuard.request)
    (options : RateLimitGuard.RateLimitOptions) (w : world)
    (v : RateLimitGuard.verdict) (w' : world) :
  let key := RateLimitGuard.generateKey sha256_hex req in
  let limit := or_default (RateLimitGuard.limit options) 100 in
  let windowMs := or_default (RateLimitGuard.windowMs options) 60000 in
  let config := {| points := limit; duration := inject_Z windowMs / 1000;
                   blockDuration := Some 60 |} in
  RateLimitGuard.canActivate sha256_hex req (Some options) w = (Ok v, w') ->
  raised w' = raised w ->
  present (clock w) (db w) (prefixed (key +:+ ":blocked")) = false ->
  limit < hits (clock w) (db w) (prefixed (resultKey key (clock w) (duration config))) + 1 ->
  w' = (consume key config (isBlocked key w).2).2 /\
  db w' !! prefixed (key +:+ ":blocked") = Some (Entry "1" (Some (clock w + 60 * 1000))) /\
  exists hint, RateLimitGuard.result v
               = inr {| RateLimitGuard.statusCode := 429;
                        RateLimitGuard.retryAfter := Some hint |}.
Proof.
  intros key limit windowMs config.
  unfold RateLimitGuard.canActivate, RateLimitGuard.getRateLimitConfig.
  cbn [RateLimitGuard.limit' RateLimitGuard.windowMs']. cbv zeta.
  fold key limit windowMs. fold config.
  destruct (isBlocked_returns key w) as (b & w1 & Eb).
  destruct (consume_returns key config w1) as (r & w2 & Er).
  pose proof (consume_raised_le key config w1) as Hle. rewrite Er in Hle. simpl in Hle.
  unfold bind, Date_now, ret. rewrite Eb. simpl.
  destruct (isBlocked_inv _ _ _ _ Eb) as [(Hr1 & Hd1 & Hc1 & Hb)|(Hr1 & Hb)]; subst b.
  2:{ rewrite Er. destruct (negb (success r)); intros [= <- <-] Hr; lia. }
  intros E Hr Hp HP. rewrite Hp in E. rewrite Er in E.
  assert (w' = w2) as -> by (destruct (negb (success r)); simpl in E; by injection E as _ <-).
  destruct (consume_writes_block key config 60 w1 r w2 eq_refl ltac:(lia) Er ltac:(lia))
    as (Hk & _ & Hs).
  { rewrite Hd1, Hc1. exact HP. }
  split; [by rewrite Er|]. rewrite Hc1 in Hk. split; [exact Hk|].
  rewrite Hs in E. simpl in E. injection E as <-. simpl. eauto.
Qed.

Lemma gate_blocks_for_60s_witness :
  let req := {| RateLimitGuard.ip := "10.0.0.7"; RateLimitGuard.user_agent := Some "curl";
                RateLimitGuard.route_path := Some "/tasks"; RateLimitGuard.url := "/tasks" |} in
  let options := {| RateLimitGuard.limit := Some 1; RateLimitGuard.windowMs := Some 1000 |} in
  let w := World {[ "ratelimit:10.0.0.7:curl:/tasks:5" := Entry "1" (Some 6000) ]} 5000 [] 0 in
  let after := RateLimitGuard.canActivate (fun s => s) req (Some options) w in
  db after.2 !! "ratelimit:10.0.0.7:curl:/tasks:blocked" = Some (Entry "1" (Some 65000)) /\
  exists v hint, after.1 = Ok v /\
    RateLimitGuard.result v = inr {| RateLimitGuard.statusCode := 429;
                                     RateLimitGuard.retryAfter := Some hint |}.
Proof.
  intros req options w after.
  set (v := match after.1 with
            | Ok x => x
            | Throw _ => {| RateLimitGuard.headers := None; RateLimitGuard.result := inl true |}
            end).
  pose proof (gate_blocks_for_60s (fun s => s) req options w v after.2
                ltac:(vm_compute; reflexivity) eq_refl eq_refl
                ltac:(vm_compute; reflexivity)) as (_ & Hk & Hv).
  split; [exact Hk|].
  destruct Hv as [hint Hv]. exists v, hint. split; [vm_compute; reflexivity|exact Hv].
Defined.

(** * Further properties *)

(** ** Single entries of the cache *)

Lemma send_world {A} (c : Redis.cmd A) (w : world) r w' :
  Client.send c w = (r, w') ->
  clock w' = clock w /\ faults w' = tail (faults w) /\
  (db w' = db w \/ db w' = (c (clock w) (db w)).2).
Proof.
  unfold Client.send. destruct (faults w) as [|[] fs];
    try (intros [= <- <-]; simpl; auto);
    destruct (c (clock w) (db w)) as [[a|e] d]; intros [= <- <-]; simpl; auto.
Qed.


(** X2. [get] never raises and never changes the store.  It returns
    [null] when the backend fails, when nothing live is stored under
    the key, when the stored text is empty and when it is not JSON;
    otherwise it returns the parsed text. *)
Theorem get_degrades_to_null (J : Json) (key : string) (ns : option string) (w : world) :
  let finalKey := CacheService.getKey key ns in
  let after := CacheService.get key ns w in
  db after.2 = db w /\
  after.1 = Ok (if (raised w <? raised after.2)%nat then null
                else match peek (clock w) (db w) finalKey with
                     | Some e => if truthy (payload e)
                                 then default null (JSON_parse (payload e)) else null
                     | None => null
                     end).
Proof.
  unfold CacheService.get, CacheService.parse, bind, try_catch, log, ret, throw,
    Client.send, Redis.GET. simpl.
  destruct (faults w) as [|[] fs]; simpl.
  2:{ split; [reflexivity|]. by rewrite (proj2 (Nat.ltb_lt _ _)) by lia. }
  all: destruct (peek (clock w) (db w) _) as [e|]; simpl;
    [destruct (truthy (payload e)); simpl; [destruct (JSON_parse (payload e)); simpl|]|].
  all: by rewrite Nat.ltb_irrefl.
Qed.

Lemma set_healthy (J : Json) key v options w :
  healthy w -> 0 < default 300 (CacheService.ttl options) ->
  CacheService.set key v options w =
    (Ok tt,
     World (<[CacheService.getKey key (CacheService.namespace options) :=
               Entry (JSON_stringify v)
                 (Some (clock w + default 300 (CacheService.ttl options) * 1000))]> (db w))
       (clock w) (tail (faults w)) (raised w)).
Proof.
  intros Hh Hs.
  unfold CacheService.set, CacheService.DEFAULT_TTL, bind, try_catch, log, ret, throw.
  rewrite send_healthy by assumption. unfold Redis.SET_EX.
  by destruct (Z.leb_spec (default 300 (CacheService.ttl options)) 0); [lia|].
Qed.

(** X3. On a healthy backend, for every positive [ttl] (300 seconds when
    none is given) and every value that JSON serialisation preserves,
    [set] followed by [get] and [has] with the same key and namespace
    gives the value and [true] until [ttl] seconds have passed, and
    [null] and [false] from then on. *)
Theorem set_then_get_and_has (J : Json) (key : string) (V : value)
    (options : CacheService.CacheOptions) (w : world) (dt : Z) :
  let seconds := default 300 (CacheService.ttl options) in
  let ns := CacheService.namespace options in
  let written := (CacheService.set key V options w).2 in
  healthy w -> 0 < seconds ->
  JSON_parse (JSON_stringify V) = Some V ->
  truthy (JSON_stringify V) = true ->
  (0 <= dt < seconds * 1000 ->
     (CacheService.get key ns (at_time (clock w + dt) written)).1 = Ok V /\
     (CacheService.has key ns (at_time (clock w + dt) written)).1 = Ok true) /\
  (seconds * 1000 <= dt ->
     (CacheService.get key ns (at_time (clock w + dt) written)).1 = Ok null /\
     (CacheService.has key ns (at_time (clock w + dt) written)).1 = Ok false).
Proof.
  intros seconds ns written Hh Hs Hrt Hne. subst written.
  rewrite set_healthy by assumption. fold seconds ns.
  unfold CacheService.get, CacheService.has, bind, try_catch, log, ret, throw.
  rewrite !send_healthy by healthy_tac. simpl.
  unfold present, peek. rewrite lookup_insert_eq. unfold alive. simpl.
  split; intros Hdt.
  - destruct (Z.ltb_spec (clock w + dt) (clock w + seconds * 1000)); [|lia]. simpl.
    destruct (JSON_stringify V) as [|c s]; [discriminate|]. simpl.
    unfold CacheService.parse. by rewrite Hrt.
  - destruct (Z.ltb_spec (clock w + dt) (clock w + seconds * 1000)); [lia|]. by simpl.
Qed.

Lemma set_then_get_and_has_witness :
  let options := {| CacheService.ttl := None; CacheService.namespace := Some "users" |} in
  let written := (@CacheService.set Host.json "7" (Host.VInt 42) options (Host.fresh 0 [])).2 in
  (@CacheService.get Host.json "7" (Some "users") (at_time 299999 written)).1 = Ok (Host.VInt 42) /\
  (CacheService.has "7" (Some "users") (at_time 299999 written)).1 = Ok true /\
  (@CacheService.get Host.json "7" (Some "users") (at_time 300000 written)).1 = Ok Host.VNull /\
  (CacheService.has "7" (Some "users") (at_time 300000 written)).1 = Ok false.
Proof.
  intros options written.
  pose proof (set_then_get_and_has Host.json "7" (Host.VInt 42) options (Host.fresh 0 []) 299999
                ltac:(constructor) ltac:(simpl; lia) eq_refl eq_refl) as [H1 _].
  pose proof (set_then_get_and_has Host.json "7" (Host.VInt 42) options (Host.fresh 0 []) 300000
                ltac:(constructor) ltac:(simpl; lia) eq_refl eq_refl) as [_ H2].
  destruct (H1 ltac:(simpl; lia)) as [Ha Hb]. destruct (H2 ltac:(simpl; lia)) as [Hc Hd].
  repeat split; assumption.
Defined.

(** X4. [has] never raises and never changes the store: it answers
    whether a live entry is stored under the namespaced key, and [false]
    when the backend fails. *)
Theorem has_probes (key : string) (ns : option string) (w : world) :
  let after := CacheService.has key ns w in
  db after.2 = db w /\
  after.1 = Ok (if (raised w <? raised after.2)%nat then false
                else present (clock w) (db w) (CacheService.getKey key ns)).
Proof.
  unfold CacheService.has, bind, try_catch, log, ret, Client.send, Redis.EXISTS. simpl.
  destruct (faults w) as [|[] fs]; simpl.
  2:{ split; [reflexivity|]. by rewrite (proj2 (Nat.ltb_lt _ _)) by lia. }
  all: rewrite Nat.ltb_irrefl; by destruct (present _ _ _).
Qed.

Lemma delete_healthy key ns w :
  healthy w ->
  CacheService.delete key ns w =
    (Ok (present (clock w) (db w) (CacheService.getKey key ns)),
     World (base.delete (CacheService.getKey key ns) (db w)) (clock w)
       (tail (faults w)) (raised w)).
Proof.
  intros Hh. unfold CacheService.delete, bind, try_catch, log, ret.
  rewrite send_healthy by assumption. simpl. by destruct (present _ _ _).
Qed.

(** X5. On a healthy backend, [delete] answers whether a live entry was
    stored under the namespaced key, removes that entry and changes
    nothing else; afterwards [get] returns [null] and [has] returns
    [false] for that key, at any time. *)
Theorem delete_removes_one (J : Json) (key : string) (ns : option string)
    (w : world) (t : Z) :
  let finalKey := CacheService.getKey key ns in
  let after := CacheService.delete key ns w in
  healthy w ->
  after.1 = Ok (present (clock w) (db w) finalKey) /\
  db after.2 = base.delete finalKey (db w) /\
  (CacheService.get key ns (at_time t after.2)).1 = Ok null /\
  (CacheService.has key ns (at_time t after.2)).1 = Ok false.
Proof.
  intros finalKey after Hh. subst after.
  rewrite delete_healthy by assumption. fold finalKey.
  unfold CacheService.get, CacheService.has, bind, try_catch, log, ret.
  rewrite !send_healthy by healthy_tac. simpl. fold finalKey.
  assert (Hgone : peek t (base.delete finalKey (db w)) finalKey = None)
    by (unfold peek; by rewrite lookup_delete_eq).
  unfold present. rewrite Hgone. auto.
Qed.

Lemma delete_removes_one_witness :
  let w := World {[ "task:1" := Entry "1" (Some 300000); "task:2" := Entry "2" None ]} 1000 [] 0 in
  let after := CacheService.delete "task:1" None w in
  after.1 = Ok true /\
  db after.2 = {[ "task:2" := Entry "2" None ]} /\
  (@CacheService.get Host.json "task:1" None (at_time 1000 after.2)).1 = Ok Host.VNull /\
  (CacheService.delete "task:1" None after.2).1 = Ok false.
Proof.
  intros w after.
  destruct (delete_removes_one Host.json "task:1" None w 1000 ltac:(constructor))
    as (H1 & H2 & H3 & _).
  destruct (delete_removes_one Host.json "task:1" None after.2 1000 ltac:(constructor))
    as (H4 & _).
  split; [exact H1|]. split; [etransitivity; [exact H2|vm_compute; reflexivity]|].
  split; [exact H3|exact H4].
Defined.

(** ** Invalidation by namespace *)

(** X6. On a healthy backend, [clear(ns)] with a non-empty namespace
    removes the live keys that match the glob pattern [ns:*] and leaves
    every other entry as it was.  The namespace is read as a pattern: a
    namespace with a wildcard takes keys of other namespaces with it. *)
Theorem clear_removes_matching (ns : string) (w : world) :
  let after := CacheService.clear (Some ns) w in
  healthy w -> truthy ns = true ->
  after.1 = Ok tt /\
  (forall k, Glob.glob (ns +:+ ":*") k = true -> peek (clock w) (db after.2) k = None) /\
  (forall k, Glob.glob (ns +:+ ":*") k = false -> db after.2 !! k = db w !! k).
Proof.
  intros after Hh Hns. subst after.
  unfold CacheService.clear, bind, try_catch, log, ret, throw.
  rewrite Hns. rewrite send_healthy by assumption.
  destruct (Redis.KEYS _ (clock w) (db w)) as [[ks|e] d1] eqn:EK; [|discriminate EK].
  apply KEYS_reply in EK as [-> Hks].
  destruct (0 <? length ks)%nat eqn:El; simpl.
  - rewrite send_healthy by healthy_tac. simpl.
    unfold Redis.DEL. destruct ks as [|k0 ks']; [discriminate El|].
    pose proof (del_keys_lookup (clock w) (k0 :: ks') (db w)) as Hdel.
    destruct (Redis.del_keys (clock w) (k0 :: ks') (db w)) as [n d2]. simpl in *.
    split; [reflexivity|]. split.
    + intros k Hk. unfold peek. rewrite Hdel.
      case_decide as Hin; [reflexivity|].
      destruct (db w !! k) as [e|] eqn:Ek; [|reflexivity].
      destruct (alive (clock w) e) eqn:Ha; [|reflexivity].
      exfalso. apply Hin, Hks. split; [exact Hk|].
      unfold present, peek. by rewrite Ek, Ha.
    + intros k Hk. rewrite Hdel. case_decide as Hin; [|reflexivity].
      apply Hks in Hin as [Hg _]. congruence.
  - simpl. split; [reflexivity|]. split; [|reflexivity].
    intros k Hk. destruct (peek (clock w) (db w) k) as [e|] eqn:Ek; [|reflexivity].
    exfalso. assert (Hin : k ∈ ks).
    { apply Hks. split; [exact Hk|]. unfold present. by rewrite Ek. }
    destruct ks; [by inversion Hin|discriminate El].
Qed.

Lemma clear_removes_matching_witness :
  let w := World {[ "tasks:1" := Entry "1" None;
                    "ratelimit:u:blocked" := Entry "1" (Some 60000);
                    "plain" := Entry "0" None ]} 1000 [] 0 in
  let after := CacheService.clear (Some "*") w in
  after.1 = Ok tt /\
  peek 1000 (db after.2) "tasks:1" = None /\
  peek 1000 (db after.2) "ratelimit:u:blocked" = None /\
  db after.2 !! "plain" = Some (Entry "0" None).
Proof.
  intros w after.
  destruct (clear_removes_matching "*" w ltac:(constructor) eq_refl) as (H1 & H2 & H3).
  split; [exact H1|]. split; [exact (H2 "tasks:1" eq_refl)|].
  split; [exact (H2 "ratelimit:u:blocked" eq_refl)|exact (H3 "plain" eq_refl)].
Defined.

Lemma prefix_app (p s : string) : String.prefix p (p +:+ s) = true.
Proof.
  induction p as [|c p IH]; [by destruct s|].
  change (String c p +:+ s) with (String c (p +:+ s)). simpl.
  by destruct (ascii_dec c c).
Qed.

Lemma app_colon (ns key : string) : ns +:+ ":" +:+ key = (ns +:+ ":") +:+ key.
Proof.
  induction ns as [|c ns IH]; [reflexivity|].
  change (String c ns +:+ ":" +:+ key) with (String c (ns +:+ ":" +:+ key)).
  by rewrite IH.
Qed.

(** X7. On a healthy backend, an entry written under a namespace without
    pattern characters is gone after [clear] of that namespace: [get]
    returns [null], whether the entry was written with the namespace
    option or under the bare key [ns:key]. *)
Theorem clear_invalidates_namespace (J : Json) (key : string) (V : value)
    (seconds : option Z) (ns : string) (w : world) :
  healthy w -> truthy ns = true -> Glob.all_plain (ns +:+ ":") = true ->
  0 < default 300 seconds ->
  ((CacheService.set key V {| CacheService.ttl := seconds; CacheService.namespace := Some ns |} ;;;
    CacheService.clear (Some ns) ;;;
    CacheService.get key (Some ns)) w).1 = Ok null /\
  ((CacheService.set (ns +:+ ":" +:+ key) V
      {| CacheService.ttl := seconds; CacheService.namespace := None |} ;;;
    CacheService.clear (Some ns) ;;;
    CacheService.get (ns +:+ ":" +:+ key) None) w).1 = Ok null.
Proof.
  intros Hh Hns Hp Hs.
  assert (Hgo : forall (w1 : world), healthy w1 ->
            (CacheService.clear (Some ns) ;;;
             Client.send (Redis.GET (ns +:+ ":" +:+ key))) w1
            = (Ok None, ((CacheService.clear (Some ns) ;;;
                          Client.send (Redis.GET (ns +:+ ":" +:+ key))) w1).2)).
  { intros w1 Hh1. unfold bind at 1 2.
    destruct (clear_namespace ns w1 Hh1 Hns Hp) as (H1 & Hc & H2 & _).
    assert (Hf : faults (CacheService.clear (Some ns) w1).2 = tail (tail (faults w1))
                 \/ faults (CacheService.clear (Some ns) w1).2 = tail (faults w1)).
    { unfold CacheService.clear, bind, try_catch, log, ret, throw. rewrite Hns.
      destruct (Client.send (Redis.KEYS _) w1) as [[ks|e] w2] eqn:E1; simpl;
        apply send_world in E1 as (_ & F1 & _).
      - destruct (0 <? length ks)%nat; simpl; [|auto].
        destruct (Client.send (Redis.DEL ks) w2) as [[n|e] w3] eqn:E2; simpl;
          apply send_world in E2 as (_ & F2 & _); rewrite F2, F1; auto.
      - auto. }
    destruct (CacheService.clear (Some ns) w1) as [r w2]. simpl in *. subst r.
    assert (Hh2 : healthy w2).
    { unfold healthy in *. destruct Hf as [-> | ->]; by repeat apply Forall_tail_false. }
    rewrite send_healthy by assumption. simpl. rewrite Hc.
    rewrite (H2 (ns +:+ ":" +:+ key)); [reflexivity|].
    rewrite app_colon. apply prefix_app. }
  assert (Hboth : forall k o,
            CacheService.getKey k (CacheService.namespace o) = ns +:+ ":" +:+ key ->
            CacheService.ttl o = seconds ->
            forall nsg, CacheService.getKey k nsg = ns +:+ ":" +:+ key ->
            ((CacheService.set k V o ;;; CacheService.clear (Some ns) ;;;
              CacheService.get k nsg) w).1 = Ok null).
  { intros k o Hk Ht nsg Hg.
    unfold bind at 1. rewrite set_healthy by (rewrite ?Ht; assumption).
    unfold CacheService.get. rewrite Hg.
    unfold bind at 1, try_catch.
    match goal with |- context [CacheService.clear (Some ns) ?w1] =>
      specialize (Hgo w1 ltac:(healthy_tac)); set (w1' := w1) in * end.
    unfold bind at 2.
    unfold bind at 1 in Hgo.
    destruct (CacheService.clear (Some ns) w1') as [[u|e] w2];
      unfold bind in Hgo |- *; simpl in *.
    - destruct (Client.send (Redis.GET (ns +:+ ":" +:+ key)) w2) as [r w3].
      simpl in Hgo. injection Hgo as ->. reflexivity.
    - discriminate Hgo. }
  split.
  - apply Hboth; simpl; try reflexivity; by rewrite Hns.
  - apply Hboth; reflexivity.
Qed.

Lemma clear_invalidates_namespace_witness :
  let w := Host.fresh 0 [] in
  ((@CacheService.set Host.json "{}" (Host.VInt 3)
      {| CacheService.ttl := Some 60; CacheService.namespace := Some "tasks" |} ;;;
    CacheService.clear (Some "tasks") ;;;
    @CacheService.get Host.json "{}" (Some "tasks")) w).1 = Ok Host.VNull /\
  ((@CacheService.set Host.json "tasks:{}" (Host.VInt 3)
      {| CacheService.ttl := Some 60; CacheService.namespace := None |} ;;;
    CacheService.clear (Some "tasks") ;;;
    @CacheService.get Host.json "tasks:{}" None) w).1 = Ok Host.VNull.
Proof.
  exact (clear_invalidates_namespace Host.json "{}" (Host.VInt 3) (Some 60) "tasks"
           (Host.fresh 0 []) ltac:(constructor) eq_refl eq_refl ltac:(simpl; lia)).
Defined.

(** ** Batches *)

Lemma run_queue_faults {A} (q : list (Redis.cmd A)) : forall w,
  healthy w -> healthy (Client.run_queue q w).2 /\ clock (Client.run_queue q w).2 = clock w.
Proof.
  induction q as [|c q IH]; intros w Hh; simpl; [auto|].
  destruct (Client.send c w) as [r w1] eqn:E.
  apply send_world in E as (Hc & Hf & _).
  assert (Hh1 : healthy w1) by (unfold healthy in *; rewrite Hf; by apply Forall_tail_false).
  destruct (IH w1 Hh1) as [H1 H2].
  destruct (Client.run_queue q w1) as [rs w2]. simpl in *. split; [exact H1|congruence].
Qed.

Lemma getKey_inj ns k k' :
  CacheService.getKey k ns = CacheService.getKey k' ns -> k = k'.
Proof.
  unfold CacheService.getKey. destruct ns as [ns|]; [destruct (truthy ns)|]; auto.
  intros E. apply (inj (String.app _)) in E. by apply (inj (String.app _)) in E.
Qed.

Lemma run_queue_sets (J : Json) ns seconds (kvs : list (string * value)) : forall w k v,
  healthy w -> 0 < seconds ->
  NoDup kvs.*1 -> (k, v) ∈ kvs ->
  db (Client.run_queue
        ((fun kv : string * value =>
            Redis.SET_EX (CacheService.getKey kv.1 ns) (JSON_stringify kv.2) seconds) <$> kvs) w).2
    !! CacheService.getKey k ns
  = Some (Entry (JSON_stringify v) (Some (clock w + seconds * 1000))).
Proof.
  induction kvs as [|[k0 v0] kvs IH]; intros w k v Hh Hs Hnd Hin; [by inversion Hin|].
  apply NoDup_cons in Hnd as [Hk0 Hnd]. simpl.
  rewrite send_healthy by assumption. unfold Redis.SET_EX at 1.
  destruct (Z.leb_spec seconds 0); [lia|]. simpl.
  set (w1 := World _ _ _ _).
  assert (Hh1 : healthy w1) by (subst w1; healthy_tac).
  apply elem_of_cons in Hin as [[= -> ->]|Hin].
  - clear IH. assert (Hkeep : forall (q : list (string * value)) w2,
        healthy w2 -> k0 ∉ q.*1 ->
        db (Client.run_queue
              ((fun kv : string * value =>
                  Redis.SET_EX (CacheService.getKey kv.1 ns) (JSON_stringify kv.2) seconds) <$> q)
              w2).2 !! CacheService.getKey k0 ns = db w2 !! CacheService.getKey k0 ns).
    { induction q as [|[k1 v1] q IHq]; intros w2 Hh2 Hq; [reflexivity|]. simpl.
      rewrite send_healthy by assumption. unfold Redis.SET_EX at 1.
      destruct (Z.leb_spec seconds 0); [lia|]. simpl.
      apply not_elem_of_cons in Hq as [Hne Hq]. simpl in Hne.
      set (w2' := World _ _ _ _).
      specialize (IHq w2' ltac:(subst w2'; healthy_tac) Hq).
      destruct (Client.run_queue _ w2') as [rs w3]. simpl in *. rewrite IHq.
      subst w2'. simpl.
      apply lookup_insert_ne. intros E. apply getKey_inj in E. congruence. }
    specialize (Hkeep kvs w1 Hh1 Hk0).
    destruct (Client.run_queue _ w1) as [rs w3]. simpl in *. rewrite Hkeep.
    subst w1. simpl. apply lookup_insert_eq.
  - specialize (IH w1 k v Hh1 Hs Hnd Hin).
    destruct (Client.run_queue _ w1) as [rs w3]. simpl in *. exact IH.
Qed.

(** X8. On a healthy backend, with a positive [ttl] (300 seconds when
    none is given), after [mset] of the entries of an object, [get] of
    any of its keys under the same namespace returns the value given
    for it, if JSON serialisation preserves that value, until [ttl]
    seconds have passed. *)
Theorem mset_then_get_each (J : Json) (keyValues : list (string * value))
    (options : CacheService.CacheOptions) (k : string) (V : value) (w : world) (dt : Z) :
  let seconds := default 300 (CacheService.ttl options) in
  let written := (CacheService.mset keyValues options w).2 in
  healthy w -> 0 < seconds ->
  NoDup keyValues.*1 -> (k, V) ∈ keyValues ->
  JSON_parse (JSON_stringify V) = Some V ->
  truthy (JSON_stringify V) = true ->
  0 <= dt < seconds * 1000 ->
  (CacheService.mset keyValues options w).1 = Ok tt /\
  (CacheService.get k (CacheService.namespace options) (at_time (clock w + dt) written)).1 = Ok V.
Proof.
  intros seconds written Hh Hs Hnd Hin Hrt Hne Hdt. subst written.
  unfold CacheService.mset, CacheService.DEFAULT_TTL, bind, try_catch, log, ret, throw.
  rewrite pipeline_exec_healthy by assumption. fold seconds.
  set (w0 := World (db w) (clock w) (tail (faults w)) (raised w)).
  assert (Hh0 : healthy w0) by (subst w0; healthy_tac).
  pose proof (run_queue_sets J (CacheService.namespace options) seconds keyValues w0 k V
                Hh0 Hs Hnd Hin) as Hk.
  destruct (run_queue_faults
              ((fun kv : string * value =>
                  Redis.SET_EX (CacheService.getKey kv.1 (CacheService.namespace options))
                    (JSON_stringify kv.2) seconds) <$> keyValues) w0 Hh0) as [Hh1 _].
  destruct (Client.run_queue _ w0) as [rs w1]. simpl in *.
  split; [reflexivity|].
  unfold CacheService.get, bind, try_catch, log, ret.
  rewrite send_healthy by (unfold healthy in *; exact Hh1). simpl.
  unfold peek. rewrite Hk. unfold alive. simpl.
  destruct (Z.ltb_spec (clock w + dt) (clock w + seconds * 1000)); [|lia]. simpl.
  destruct (JSON_stringify V) as [|c s]; [discriminate|]. simpl.
  unfold CacheService.parse. by rewrite Hrt.
Qed.

Lemma mset_then_get_each_witness :
  let options := {| CacheService.ttl := Some 60; CacheService.namespace := Some "cfg" |} in
  let batch := [("a", Host.VInt 1); ("b", Host.VBool true)] in
  let written := (@CacheService.mset Host.json batch options (Host.fresh 0 [])).2 in
  (@CacheService.mset Host.json batch options (Host.fresh 0 [])).1 = Ok tt /\
  (@CacheService.get Host.json "b" (Some "cfg") (at_time 59999 written)).1 = Ok (Host.VBool true).
Proof.
  intros options batch written.
  refine (mset_then_get_each Host.json batch options "b" (Host.VBool true) (Host.fresh 0 [])
            59999 _ _ _ _ eq_refl eq_refl _).
  - constructor.
  - simpl. lia.
  - simpl. apply (bool_decide_unpack _). reflexivity.
  - right. left.
  - simpl. lia.
Defined.

(** ** The connection *)

(** X9. The client of the cache waits [100 * times] milliseconds before
    reconnection attempts 1 to 3 and gives up from the fourth on; the
    cap of 3000 milliseconds is never reached. *)
Theorem retryStrategy_delays (times : Z) :
  (CacheConnection.retryStrategy times = None <-> 3 < times) /\
  (forall delay, CacheConnection.retryStrategy times = Some delay ->
     times <= 3 /\ delay = times * 100 /\ delay <= 300).
Proof.
  unfold CacheConnection.retryStrategy. destruct (Z.ltb_spec 3 times).
  - split; [tauto|discriminate].
  - split; [split; [discriminate|lia]|]. intros delay [= <-]. lia.
Qed.

Lemma retryStrategy_delays_witness :
  CacheConnection.retryStrategy 4 = None /\
  (CacheConnection.retryStrategy 3 = Some 300 -> 3 <= 3 /\ 300 = 3 * 100 /\ 300 <= 300).
Proof.
  split.
  - apply (proj1 (retryStrategy_delays 4)). lia.
  - apply (proj2 (retryStrategy_delays 3)).
Defined.

(** ** What [consume] touches *)

Lemma send_lookup {A} (c : Redis.cmd A) (w : world) r w' (k : string) :
  (forall now d, (c now d).2 !! k = d !! k) ->
  Client.send c w = (r, w') -> db w' !! k = db w !! k.
Proof.
  intros Hc E. apply send_world in E as (_ & _ & [-> | ->]); auto.
Qed.

Lemma INCR_other k k' now d : k' <> k -> (Redis.INCR k now d).2 !! k' = d !! k'.
Proof.
  intros Hne. unfold Redis.INCR. destruct (peek now d k) as [e|]; simpl.
  - destruct (Redis.as_int64 (payload e)) as [n|]; simpl; [|reflexivity].
    destruct (n =? 2 ^ 63 - 1); simpl; [reflexivity|]. by rewrite lookup_insert_ne.
  - by rewrite lookup_insert_ne.
Qed.

Lemma PTTL_other k k' now d : (Redis.PTTL k now d).2 !! k' = d !! k'.
Proof. reflexivity. Qed.

Lemma PEXPIRE_other k k' ms now d : k' <> k -> (PEXPIRE k ms now d).2 !! k' = d !! k'.
Proof.
  intros Hne. unfold PEXPIRE, Redis.PEXPIRE.
  destruct (_ =? 0); [|reflexivity].
  destruct (peek now d k) as [e|]; simpl; [|reflexivity].
  destruct (_ <=? 0); simpl; [by rewrite lookup_delete_ne|by rewrite lookup_insert_ne].
Qed.

Lemma SET_PX_other k k' v ms now d : k' <> k -> (Redis.SET_PX k v ms now d).2 !! k' = d !! k'.
Proof.
  intros Hne. unfold Redis.SET_PX. destruct (ms <=? 0); simpl; [reflexivity|].
  by rewrite lookup_insert_ne.
Qed.

Lemma window_key_not_block_key key now duration :
  prefixed (resultKey key now duration) <> prefixed (key +:+ ":blocked").
Proof.
  unfold prefixed, resultKey. intros E.
  apply (inj (String.app _)) in E. apply (inj (String.app _)) in E.
  injection E as E. destruct (floor_div now (duration * 1000)); simpl in E; try discriminate.
  by apply Z_to_string_not_blocked in E.
Qed.

Lemma consume_other_keys key config w k :
  k <> prefixed (resultKey key (clock w) (duration config)) ->
  k <> prefixed (key +:+ ":blocked") ->
  db (consume key config w).2 !! k = db w !! k.
Proof.
  intros Hwk Hbk.
  unfold consume, bind, try_catch, Date_now, log, ret, throw, Client.exec. simpl.
  destruct (faults w) as [|[] fs] eqn:F; simpl; auto.
  all: destruct (Client.send (Redis.INCR _) _) as [r1 w1] eqn:E1;
    destruct (Client.send (Redis.PTTL _) _) as [r2 w2] eqn:E2; simpl.
  all: apply (send_lookup _ _ _ _ k) in E1; [|intros; by apply INCR_other];
       apply (send_lookup _ _ _ _ k) in E2; [|intros; by apply PTTL_other]; simpl in E1.
  all: destruct r1 as [c|e1]; simpl; [|congruence].
  all: destruct r2 as [t|e2]; simpl; [|congruence].
  all: destruct (c =? 1); simpl.
  all: try (destruct (Client.send (PEXPIRE _ _) _) as [[x|e3] w3] eqn:E3; simpl;
            (apply (send_lookup _ _ _ _ k) in E3; [|intros; by apply PEXPIRE_other])).
  all: try congruence.
  all: destruct ((points config <? c) && truthy_num (blockDuration config)); simpl.
  all: try (destruct (Client.send (Redis.SET_PX _ _ _) _) as [[x'|e4] w4] eqn:E4; simpl;
            (apply (send_lookup _ _ _ _ k) in E4; [|intros; by apply SET_PX_other])).
  all: congruence.
Qed.

(** X10. [consume] writes two keys only, the window key and
    the block key of its own limiter key: whatever the backend does,
    every other entry of the store is as it was. *)
Theorem consume_frame (key : string) (config : RateLimitConfig) (w : world) (k : string) :
  k <> prefixed (resultKey key (clock w) (duration config)) ->
  k <> prefixed (key +:+ ":blocked") ->
  db (consume key config w).2 !! k = db w !! k.
Proof.
  intros Hwk Hbk.
  apply consume_other_keys; assumption.
Qed.

Lemma consume_frame_witness :
  let config := {| points := 0; duration := inject_Z 60; blockDuration := Some 60 |} in
  let w := World {[ "ratelimit:bob:0" := Entry "5" (Some 60000);
                    "tasks:{}" := Entry "[]" None ]} 1000 [] 0 in
  db (consume "alice" config w).2 !! "ratelimit:bob:0" = Some (Entry "5" (Some 60000)) /\
  db (consume "alice" config w).2 !! "tasks:{}" = Some (Entry "[]" None).
Proof.
  intros config w. split.
  - etransitivity; [apply (consume_frame "alice" config w "ratelimit:bob:0")|];
      [vm_compute; discriminate|vm_compute; discriminate|vm_compute; reflexivity].
  - etransitivity; [apply (consume_frame "alice" config w "tasks:{}")|];
      [vm_compute; discriminate|vm_compute; discriminate|vm_compute; reflexivity].
Defined.

(** X12. [consume] creates or renews a block record only when it has
    seen a count above [points] with a block duration configured:
    whatever the backend does, if the incremented count is at most
    [points], or no block duration is given, the block key is left as
    it was. *)
Theorem consume_blocks_only_above_limit (key : string) (config : RateLimitConfig) (w : world) :
  hits (clock w) (db w) (prefixed (resultKey key (clock w) (duration config))) + 1
    <= points config \/ truthy_num (blockDuration config) = false ->
  db (consume key config w).2 !! prefixed (key +:+ ":blocked")
    = db w !! prefixed (key +:+ ":blocked").
Proof.
  intros Hno.
  pose proof (window_key_not_block_key key (clock w) (duration config)) as Hne.
  assert (Hne' : prefixed (key +:+ ":blocked")
                 <> prefixed (resultKey key (clock w) (duration config))) by congruence.
  unfold consume, bind, try_catch, Date_now, log, ret, throw, Client.exec. simpl.
  set (wk := prefixed (resultKey key (clock w) (duration config))) in *.
  set (bk := prefixed (key +:+ ":blocked")) in *.
  destruct (faults w) as [|[] fs] eqn:F; simpl; auto.
  all: destruct (Client.send (Redis.INCR _) _) as [r1 w1] eqn:E1;
    destruct (Client.send (Redis.PTTL _) _) as [r2 w2] eqn:E2; simpl.
  all: pose proof (send_lookup _ _ _ _ bk (fun now d => INCR_other wk bk now d Hne') E1) as L1;
       pose proof (send_lookup _ _ _ _ bk (fun now d => PTTL_other wk bk now d) E2) as L2;
       simpl in L1.
  all: destruct r1 as [c|e1]; simpl; [|congruence].
  all: destruct r2 as [t|e2]; simpl; [|congruence].
  all: apply send_Ok_inv in E1 as (E1 & _ & _); simpl in E1; apply INCR_count in E1; subst c.
  all: destruct (_ =? 1); simpl.
  all: try (destruct (Client.send (PEXPIRE _ _) _) as [[x|e3] w3] eqn:E3; simpl;
            pose proof (send_lookup _ _ _ _ bk
                          (fun now d => PEXPIRE_other wk bk _ now d Hne') E3) as L3).
  all: try congruence.
  all: assert (Hc : (points config <? hits (clock w) (db w) wk + 1)
                    && truthy_num (blockDuration config) = false)
         by (destruct Hno as [Hle | ->]; [apply andb_false_iff; left; apply Z.ltb_ge; lia
                                         |apply andb_false_r]).
  all: rewrite Hc; simpl; congruence.
Qed.

Lemma consume_blocks_only_above_limit_witness :
  let w := Host.fresh 1000 [] in
  db (consume "user" {| points := 1; duration := inject_Z 60; blockDuration := Some 60 |} w).2
    !! prefixed "user:blocked" = None /\
  db (consume "user" {| points := 0; duration := inject_Z 60; blockDuration := None |} w).2
    !! prefixed "user:blocked" = None.
Proof.
  intros w. split.
  - etransitivity; [apply consume_blocks_only_above_limit|vm_compute; reflexivity].
    left. vm_compute. discriminate.
  - etransitivity; [apply consume_blocks_only_above_limit|vm_compute; reflexivity].
    right. reflexivity.
Defined.

(** ** The count of a window *)

Lemma as_int64_range s n :
  Redis.as_int64 s = Some n -> - 2 ^ 63 <= n <= 2 ^ 63 - 1.
Proof.
  unfold Redis.as_int64. destruct (Z_of_string s) as [m|]; [|discriminate].
  destruct (String.eqb _ _); simpl; [|discriminate].
  destruct (Z.leb_spec (- 2 ^ 63) m); simpl; [|discriminate].
  destruct (Z.leb_spec m (2 ^ 63 - 1)); simpl; [|discriminate].
  intros [= <-]. lia.
Qed.

Lemma INCR_entry k now d c d' :
  Redis.INCR k now d = (inl c, d') ->
  exists x, d' !! k = Some (Entry (Z_to_string c) x) /\ alive now (Entry (Z_to_string c) x) = true /\
            - 2 ^ 63 <= c <= 2 ^ 63 - 1.
Proof.
  unfold Redis.INCR, peek. destruct (d !! k) as [e|] eqn:Ek.
  - destruct (alive now e) eqn:Ha.
    + destruct (Redis.as_int64 (payload e)) as [n|] eqn:En; [|discriminate].
      destruct (Z.eqb_spec n (2 ^ 63 - 1)); [discriminate|].
      intros [= <- <-]. exists (expireAt e). rewrite lookup_insert_eq.
      apply as_int64_range in En. repeat split; auto; lia.
    + intros [= <- <-]. exists None. rewrite lookup_insert_eq. repeat split; auto; lia.
  - intros [= <- <-]. exists None. rewrite lookup_insert_eq. repeat split; auto; lia.
Qed.

Lemma PEXPIRE_keeps k (ms : Q) now d x d' e :
  (0 < ms)%Q -> PEXPIRE k ms now d = (inl x, d') ->
  d !! k = Some e -> alive now e = true ->
  exists t, d' !! k = Some (Entry (payload e) (Some t)) /\ now < t.
Proof.
  intros Hpos. unfold PEXPIRE, Redis.PEXPIRE, peek.
  destruct (Z.eqb_spec (Qnum ms mod Z.pos (Qden ms)) 0) as [Hm|]; [|discriminate].
  intros E Hk Ha. rewrite Hk, Ha in E.
  assert (0 < Qnum ms / Z.pos (Qden ms)).
  { unfold Qlt in Hpos. simpl in Hpos. rewrite Z.mul_1_r in Hpos.
    apply Z.div_exact in Hm; [|lia]. nia. }
  destruct (Z.leb_spec (Qnum ms / Z.pos (Qden ms)) 0); [lia|].
  injection E as _ <-. eexists. rewrite lookup_insert_eq. split; [reflexivity|lia].
Qed.

(** X11. With a positive window duration, a [consume] call that the
    backend answers without error raises the count stored under the
    window key by exactly one (from zero when the key was not there),
    whether or not the limit is exceeded. *)
Theorem consume_increments (key : string) (config : RateLimitConfig)
    (w : world) (r : ConsumeResult) (w' : world) :
  let windowKey := prefixed (resultKey key (clock w) (duration config)) in
  (0 < duration config)%Q ->
  consume key config w = (Ok r, w') -> raised w' = raised w ->
  hits (clock w) (db w') windowKey = hits (clock w) (db w) windowKey + 1.
Proof.
  intros wk Hpos.
  assert (Hpos' : (0 < duration config * 1000)%Q).
  { unfold Qlt in *. simpl in *. lia. }
  pose proof (window_key_not_block_key key (clock w) (duration config)) as Hne. fold wk in Hne.
  unfold consume, bind, try_catch, Date_now, log, ret, throw, Client.exec. simpl. fold wk.
  destruct (faults w) as [|[] fs] eqn:F; simpl.
  2:{ intros [= <- <-]. simpl. lia. }
  all: destruct (Client.send (Redis.INCR _) _) as [[c|e] w1] eqn:E1;
    destruct (Client.send (Redis.PTTL _) _) as [[t|e'] w2] eqn:E2; simpl.
  all: try (apply raised_send_Throw in E1); try (apply raised_send_Throw in E2);
       try (pose proof (raised_send_Ok _ _ _ _ E1)); try (pose proof (raised_send_Ok _ _ _ _ E2));
       simpl in *.
  all: try (intros [= <- <-]; simpl; lia).
  all: apply send_Ok_inv in E1 as (E1 & Hc1 & _); apply send_Ok_inv in E2 as (E2 & Hc2 & _);
       simpl in E1, Hc1; pose proof (INCR_count _ _ _ _ _ E1) as Hcount;
       apply INCR_entry in E1 as (x & Hk1 & Ha1 & Hrange);
       unfold Redis.PTTL in E2; injection E2 as _ E2.
  all: destruct (c =? 1) eqn:E1'; simpl.
  all: try (destruct (Client.send (PEXPIRE _ _) _) as [[y|e3] w3] eqn:E3; simpl;
            [pose proof (raised_send_Ok _ _ _ _ E3); apply send_Ok_inv in E3 as (E3 & Hc3 & _);
             rewrite Hc2, Hc1, <- E2 in E3;
             destruct (PEXPIRE_keeps _ _ _ _ _ _ _ Hpos' E3 Hk1 Ha1) as (t3 & Hk3 & Ht3)
            |apply raised_send_Throw in E3]).
  all: try (intros [= <- <-]; simpl; lia).
  all: destruct ((points config <? c) && truthy_num (blockDuration config)); simpl.
  all: try (destruct (Client.send (Redis.SET_PX _ _ _) _) as [[x'|e4] w4] eqn:E4; simpl;
            [pose proof (raised_send_Ok _ _ _ _ E4);
             pose proof (send_lookup _ _ _ _ wk
                           (fun now d => SET_PX_other _ wk _ _ now d Hne) E4) as L4
            |apply raised_send_Throw in E4]).
  all: try (intros [= <- <-]; simpl; lia).
  all: intros [= <- <-] _; rewrite <- Hcount; unfold hits, peek.
  all: rewrite ?L4, <- ?E2; first [rewrite Hk3 | rewrite Hk1]; unfold alive in *; simpl in *.
  all: try (destruct (Z.ltb_spec (clock w) t3); [|lia]).
  all: rewrite ?Ha1; simpl; by rewrite as_int64_to_string by lia.
Qed.

Lemma consume_increments_witness :
  let config := {| points := 1; duration := inject_Z 60; blockDuration := Some 60 |} in
  let w := World {[ "ratelimit:user:0" := Entry "7" (Some 60000) ]} 1000 [] 0 in
  hits 1000 (db w) "ratelimit:user:0" = 7 /\
  hits 1000 (db (consume "user" config w).2) "ratelimit:user:0" = 8.
Proof.
  intros config w. split; [reflexivity|].
  etransitivity;
    [apply (consume_increments "user" config w
              {| success := false; remainingPoints := 0; msBeforeNext := inject_Z 59000 |}
              (consume "user" config w).2)|];
    [reflexivity|vm_compute; reflexivity|reflexivity|reflexivity].
Defined.

(** ** Windows *)

Lemma consume_healthy key config w : healthy w -> healthy (consume key config w).2.
Proof.
  intros Hh.
  unfold consume, bind, try_catch, Date_now, log, ret, throw. simpl.
  rewrite exec_healthy by assumption. simpl.
  destruct (Client.send (Redis.INCR _) _) as [r1 w1] eqn:E1;
    destruct (Client.send (Redis.PTTL _) _) as [r2 w2] eqn:E2; simpl.
  apply send_world in E1 as (_ & F1 & _); apply send_world in E2 as (_ & F2 & _);
    simpl in F1.
  assert (H2 : healthy w2)
    by (unfold healthy in *; rewrite F2, F1; by repeat apply Forall_tail_false).
  all: destruct r1 as [c|e1]; simpl; [|exact H2].
  all: destruct r2 as [t|e2]; simpl; [|exact H2].
  all: destruct (c =? 1); simpl.
  all: try (destruct (Client.send (PEXPIRE _ _) _) as [[x|e3] w3] eqn:E3; simpl;
            apply send_world in E3 as (_ & F3 & _);
            assert (H3 : healthy w3)
              by (unfold healthy in *; rewrite F3; by apply Forall_tail_false)).
  all: try assumption.
  all: destruct ((points config <? c) && truthy_num (blockDuration config)); simpl;
       try assumption.
  all: destruct (Client.send (Redis.SET_PX _ _ _) _) as [[x'|e4] w4] eqn:E4; simpl;
       apply send_world in E4 as (_ & F4 & _);
       unfold healthy in *; rewrite F4; by apply Forall_tail_false.
Qed.

Lemma consume_each_frame key config times : forall w k,
  Forall (fun t => k <> prefixed (resultKey key t (duration config))) times ->
  k <> prefixed (key +:+ ":blocked") ->
  db (consume_each key config times w).2 !! k = db w !! k.
Proof.
  induction times as [|t ts IH]; intros w k Hts Hbk; [reflexivity|].
  inversion Hts as [|? ? Ht Hts']; subst. simpl.
  pose proof (consume_other_keys key config (at_time t w) k Ht Hbk) as Hf.
  destruct (consume key config (at_time t w)) as [r w1].
  specialize (IH w1 k Hts' Hbk).
  destruct (consume_each key config ts w1) as [rs w2]. simpl in *. congruence.
Qed.

Lemma consume_each_healthy key config times : forall w,
  healthy w -> healthy (consume_each key config times w).2.
Proof.
  induction times as [|t ts IH]; intros w Hh; [exact Hh|]. simpl.
  pose proof (consume_healthy key config (at_time t w) Hh) as H1.
  destruct (consume key config (at_time t w)) as [r w1].
  specialize (IH w1 H1).
  by destruct (consume_each key config ts w1) as [rs w2].
Qed.

Lemma Z_to_string_inj a b : Z_to_string a = Z_to_string b -> a = b.
Proof.
  intros E. pose proof (Z_of_to_string a) as Ha. rewrite E, Z_of_to_string in Ha. congruence.
Qed.

Lemma other_window_other_key key D t t2 :
  0 < D -> ~ same_window D t2 t ->
  prefixed (resultKey key t2 (inject_Z D)) <> prefixed (resultKey key t (inject_Z D)).
Proof.
  intros HD Hne. unfold same_window in Hne. unfold prefixed, resultKey.
  rewrite !floor_div_pos in * by assumption. simpl.
  intros E. apply (inj (String.app _)) in E. apply (inj (String.app _)) in E.
  injection E as E. apply Z_to_string_inj in E. congruence.
Qed.

(** ** The quota of a window *)

Section Window.
Variables (d : Q) (m : Z).
Hypothesis m_pos : 0 < m.
Hypothesis floor_div_d : forall t, floor_div t (d * 1000) = Finite (t / m).
Hypothesis PEXPIRE_d : forall k, PEXPIRE k (d * 1000) = Redis.PEXPIRE k m.








End Window.






(** X13. A new window starts afresh.  On a healthy backend, with a
    window of [D > 0] whole seconds, whatever calls were made for the
    key in other windows and however high they drove their counts, the
    first call in a window whose key is not yet there sees count 1: it
    succeeds exactly when [1 <= points], with [max (points - 1) 0]
    points remaining and the full window before the next reset. *)
Theorem window_starts_afresh (key : string) (P D : Z) (bd : option Z)
    (earlier : list Z) (t2 : Z) (w : world) :
  let config := {| points := P; duration := inject_Z D; blockDuration := bd |} in
  0 < D -> blockDuration_valid bd -> healthy w ->
  Forall (fun t => ~ same_window D t2 t) earlier ->
  peek t2 (db w) (prefixed (resultKey key t2 (inject_Z D))) = None ->
  (consume key config (at_time t2 (consume_each key config earlier w).2)).1
    = Ok {| success := 1 <=? P; remainingPoints := Z.max (P - 1) 0;
            msBeforeNext := inject_Z D * 1000 |}.
Proof.
  intros config HD Hbd Hh Hother Hfresh.
  pose proof (consume_each_healthy key config earlier w Hh) as Hh1.
  pose proof (consume_each_frame key config earlier w
                (prefixed (resultKey key t2 (inject_Z D)))) as Hf.
  destruct (consume_each key config earlier w) as [rs w1]. simpl in *.
  destruct (consume_first key P D bd (at_time t2 w1) HD Hbd Hh1) as (w2 & E & _).
  - simpl. unfold peek in *. rewrite Hf; [exact Hfresh| |].
    + eapply Forall_impl; [exact Hother|]. intros t Ht. simpl.
      by apply other_window_other_key.
    + apply window_key_not_block_key.
  - fold config in E. by rewrite E.
Qed.

Lemma window_starts_afresh_witness :
  let config := {| points := 2; duration := inject_Z 60; blockDuration := None |} in
  (consume "user" config
     (at_time 60000 (consume_each "user" config [59000; 59500; 59900] (Host.fresh 0 [])).2)).1
  = Ok {| success := true; remainingPoints := 1; msBeforeNext := inject_Z 60 * 1000 |}.
Proof.
  intros config.
  refine (window_starts_afresh "user" 2 60 None [59000; 59500; 59900] 60000 (Host.fresh 0 [])
            _ _ _ _ _).
  - lia.
  - exact I.
  - constructor.
  - repeat constructor; vm_compute; discriminate.
  - reflexivity.
Defined.

Lemma consume_each_expiry key P D bd t1 times : forall w j,
  0 < D -> blockDuration_valid bd -> healthy w ->
  db w !! prefixed (resultKey key t1 (inject_Z D)) =
    Some (Entry (Z_to_string j) (Some (t1 + D * 1000))) ->
  Forall (same_window D t1) times ->
  1 <= j -> j + Z.of_nat (length times) < 2 ^ 63 ->
  forall (i : nat) (t : Z), times !! i = Some t ->
    exists r,
      (consume_each key {| points := P; duration := inject_Z D; blockDuration := bd |} times w).1 !! i
        = Some (Ok r) /\
      msBeforeNext r = inject_Z (t1 + D * 1000 - t).
Proof.
  induction times as [|t0 times IH]; intros w j HD Hbd Hh Hk Hw Hj Hlen i t Hi.
  - by destruct i.
  - inversion Hw as [|? ? Hw0 Hw']; subst. simpl in Hlen.
    destruct (consume_hit key P D bd (at_time t0 w) j (t1 + D * 1000))
      as (w' & E & Hh' & Hc & Hr & Hk').
    + assumption.
    + assumption.
    + exact Hh.
    + simpl. by rewrite (same_window_key _ _ _ _ Hw0).
    + simpl. by apply same_window_live.
    + lia.
    + simpl. rewrite E.
      destruct (consume_each _ _ times w') as [rs w2] eqn:E2.
      destruct i as [|i].
      * simpl in Hi. injection Hi as <-. simpl. eexists; split; [reflexivity|]. reflexivity.
      * simpl in Hi. simpl.
        specialize (IH w' (j + 1) HD Hbd Hh').
        simpl in Hk'. rewrite (same_window_key _ _ _ _ Hw0) in Hk'.
        specialize (IH Hk' Hw' ltac:(lia) ltac:(lia) i t Hi).
        rewrite E2 in IH. exact IH.
Qed.

(** X14. Within a window, [msBeforeNext] counts from the first hit, not
    from the window boundary.  On a healthy backend, with a window of
    [D > 0] whole seconds and a fresh window key, the first call at
    [t1] reports the full [D * 1000] milliseconds wherever [t1] lies in
    the window, and every later call of the window, at time [t],
    reports [t1 + D * 1000 - t], which is positive. *)
Theorem msBeforeNext_counts_from_first_hit (key : string) (P D : Z) (bd : option Z)
    (t1 : Z) (later : list Z) (w : world) :
  let config := {| points := P; duration := inject_Z D; blockDuration := bd |} in
  let results := (consume_each key config (t1 :: later) w).1 in
  0 < D -> blockDuration_valid bd -> healthy w ->
  peek t1 (db w) (prefixed (resultKey key t1 (inject_Z D))) = None ->
  Forall (same_window D t1) later ->
  Z.of_nat (length later) + 1 < 2 ^ 63 ->
  (exists r, results !! 0%nat = Some (Ok r) /\ msBeforeNext r = (inject_Z D * 1000)%Q) /\
  (forall (i : nat) (t : Z), later !! i = Some t ->
     exists r, results !! S i = Some (Ok r) /\
       msBeforeNext r = inject_Z (t1 + D * 1000 - t) /\ 0 < t1 + D * 1000 - t).
Proof.
  intros config results HD Hbd Hh Hfresh Hwin Hlen. subst results. simpl.
  destruct (consume_first key P D bd (at_time t1 w)) as (w' & E & Hh' & Hc & Hr & Hk'); auto.
  fold config in E. rewrite E.
  destruct (consume_each key config later w') as [rs w2] eqn:E2. simpl.
  split; [eexists; split; reflexivity|].
  intros i t Hi. simpl in Hk'.
  destruct (consume_each_expiry key P D bd t1 later w' 1 HD Hbd Hh' Hk' Hwin
              ltac:(lia) ltac:(lia) i t Hi) as (r & Hr1 & Hr2).
  fold config in Hr1. rewrite E2 in Hr1. simpl in Hr1.
  exists r. split; [exact Hr1|]. split; [exact Hr2|].
  assert (Hin : same_window D t1 t).
  { rewrite Forall_forall in Hwin. apply Hwin. by apply list_elem_of_lookup_2 in Hi. }
  apply same_window_live in Hin; lia.
Qed.

Lemma msBeforeNext_counts_from_first_hit_witness :
  let config := {| points := 5; duration := inject_Z 60; blockDuration := None |} in
  let results := (consume_each "user" config [59000; 59900] (Host.fresh 0 [])).1 in
  (exists r, results !! 0%nat = Some (Ok r) /\ msBeforeNext r = (inject_Z 60 * 1000)%Q) /\
  (exists r, results !! 1%nat = Some (Ok r) /\ msBeforeNext r = inject_Z 59100).
Proof.
  intros config results.
  destruct (msBeforeNext_counts_from_first_hit "user" 5 60 None 59000 [59900] (Host.fresh 0 [])
              ltac:(lia) I ltac:(constructor) eq_refl ltac:(repeat constructor)
              ltac:(simpl; lia)) as [H1 H2].
  split; [exact H1|].
  destruct (H2 0%nat 59900 eq_refl) as (r & Hr1 & Hr2 & _). exists r. split; assumption.
Defined.

Lemma consume_hit_without_expiry key P D bd w j :
  0 < D -> blockDuration_valid bd -> healthy w ->
  db w !! prefixed (resultKey key (clock w) (inject_Z D)) = Some (Entry (Z_to_string j) None) ->
  1 <= j < 2 ^ 63 - 1 ->
  (consume key {| points := P; duration := inject_Z D; blockDuration := bd |} w).1 =
    Ok {| success := j + 1 <=? P; remainingPoints := Z.max (P - (j + 1)) 0;
          msBeforeNext := inject_Z (-1) |}.
Proof.
  intros HD Hbd Hh Hk Hj.
  unfold consume, bind, try_catch, Date_now. simpl.
  rewrite exec_healthy by assumption. simpl.
  set (wk := prefixed (resultKey key (clock w) (inject_Z D))) in *.
  rewrite send_healthy by healthy_tac. simpl.
  unfold Redis.INCR at 1. unfold peek. rewrite Hk. unfold alive. simpl.
  rewrite as_int64_to_string by lia.
  destruct (Z.eqb_spec j (2 ^ 63 - 1)); [lia|].
  rewrite send_healthy by healthy_tac. simpl.
  unfold peek. rewrite lookup_insert_eq. unfold alive. simpl.
  destruct (Z.eqb_spec (j + 1) 1); [lia|]. simpl.
  destruct (P <? j + 1) eqn:HP; simpl; [|reflexivity].
  destruct bd as [b|]; simpl; [|reflexivity].
  destruct (Z.eqb_spec b 0); simpl; [reflexivity|].
  rewrite send_healthy by healthy_tac.
  simpl. unfold Redis.SET_PX. simpl in Hbd.
  destruct (Z.leb_spec (b * 1000) 0); [lia|]. reflexivity.
Qed.

Lemma send_ok {A} (c : Redis.cmd A) (w : world) fs :
  faults w = false :: fs ->
  Client.send c w =
    match c (clock w) (db w) with
    | (inl a, d) => (Ok a, World d (clock w) fs (raised w))
    | (inr e, d) => (Throw (ReplyError e), World d (clock w) fs (S (raised w)))
    end.
Proof. intros Hf. unfold Client.send. by rewrite Hf. Qed.

Lemma exec_ok {A} (q : list (Redis.cmd A)) (w : world) fs :
  faults w = false :: fs ->
  Client.exec q w =
    let (rs, w') := Client.run_queue q (World (db w) (clock w) fs (raised w)) in (Ok rs, w').
Proof. intros Hf. unfold Client.exec. by rewrite Hf. Qed.

Lemma send_lost {A} (c : Redis.cmd A) (w : world) fs :
  faults w = true :: fs ->
  Client.send c w = (Throw ConnectionError, World (db w) (clock w) fs (S (raised w))).
Proof. intros Hf. unfold Client.send. by rewrite Hf. Qed.

(** X15. The expiry of a window is set in a round trip of its own.  If
    that round trip fails at the first hit of a window of [D > 0] whole
    seconds, [consume] returns the fail-open result, yet the count 1
    stays under the window key with no expiry at all: it is there at
    every later time, and the next call in that window, on a healthy
    backend, sees count 2 and reports [msBeforeNext = -1]. *)
Theorem window_without_expiry (key : string) (P D : Z) (bd : option Z)
    (w : world) (fs : list bool) :
  let config := {| points := P; duration := inject_Z D; blockDuration := bd |} in
  let windowKey := prefixed (resultKey key (clock w) (inject_Z D)) in
  let after := consume key config w in
  0 < D -> blockDuration_valid bd ->
  faults w = false :: false :: false :: true :: fs ->
  peek (clock w) (db w) windowKey = None ->
  after.1 = Ok failOpen /\
  db after.2 = <[windowKey := Entry "1" None]> (db w) /\
  (forall t, hits t (db after.2) windowKey = 1) /\
  (forall next : world,
     healthy next -> db next = db after.2 ->
     resultKey key (clock next) (inject_Z D) = resultKey key (clock w) (inject_Z D) ->
     (consume key config next).1 =
       Ok {| success := 2 <=? P; remainingPoints := Z.max (P - 2) 0;
             msBeforeNext := inject_Z (-1) |}).
Proof.
  intros config wk after HD Hbd Hf Hfresh.
  assert (Hafter : after = (Ok failOpen,
            World (<[wk := Entry "1" None]> (db w)) (clock w) fs (S (raised w)))).
  { subst after. unfold config, consume, bind, try_catch, Date_now, log, ret, throw.
    cbn [points duration blockDuration fst snd]. fold wk.
    rewrite (exec_ok _ _ (false :: false :: true :: fs)) by assumption.
    cbn [Client.run_queue].
    rewrite (send_ok _ _ (false :: true :: fs)) by reflexivity.
    cbn [clock db faults raised]. unfold Redis.INCR at 1. rewrite Hfresh.
    rewrite (send_ok _ _ (true :: fs)) by reflexivity.
    cbn [clock db faults raised Redis.PTTL slot]. unfold ret, throw.
    rewrite Z.eqb_refl. rewrite PEXPIRE_whole.
    rewrite (send_lost _ _ fs) by reflexivity. reflexivity. }
  rewrite Hafter. simpl.
  split; [reflexivity|]. split; [reflexivity|]. split.
  - intros t. unfold hits, peek. by rewrite lookup_insert_eq.
  - intros next Hh Hdb Hkey.
    apply (consume_hit_without_expiry key P D bd next 1 HD Hbd Hh); [|lia].
    rewrite Hkey, Hdb. fold wk. apply lookup_insert_eq.
Qed.

Lemma window_without_expiry_witness :
  let config := {| points := 5; duration := inject_Z 60; blockDuration := None |} in
  let after := consume "user" config (Host.fresh 1000 [false; false; false; true]) in
  after.1 = Ok failOpen /\
  hits 999999999 (db after.2) "ratelimit:user:0" = 1 /\
  (consume "user" config (at_time 2000 after.2)).1 =
    Ok {| success := true; remainingPoints := 3; msBeforeNext := inject_Z (-1) |}.
Proof.
  intros config after.
  destruct (window_without_expiry "user" 5 60 None (Host.fresh 1000 [false; false; false; true])
              [] ltac:(lia) I eq_refl eq_refl) as (H1 & _ & H3 & H4).
  split; [exact H1|]. split; [exact (H3 999999999)|].
  exact (H4 (at_time 2000 after.2) ltac:(constructor) eq_refl eq_refl).
Defined.

(** ** One store for both services *)

Lemma clear_healthy ns w : healthy w -> healthy (CacheService.clear ns w).2.
Proof.
  intros Hh. unfold CacheService.clear, bind, try_catch, log, ret, throw.
  assert (Hflush : healthy (match Client.send Redis.FLUSHDB w with
                            | (Ok a, w') => (Ok a, w')
                            | (Throw e, w') => (Throw e, w')
                            end).2).
  { destruct (Client.send Redis.FLUSHDB w) as [[u|e] w1] eqn:E;
      apply send_world in E as (_ & F & _); unfold healthy in *; simpl; rewrite F;
      by apply Forall_tail_false. }
  destruct ns as [ns|]; [destruct (truthy ns)|]; try exact Hflush.
  destruct (Client.send (Redis.KEYS _) w) as [[ks|e] w1] eqn:E1; simpl;
    apply send_world in E1 as (_ & F1 & _).
  - destruct (0 <? length ks)%nat; simpl.
    + destruct (Client.send (Redis.DEL ks) w1) as [[n|e] w2] eqn:E2; simpl;
        apply send_world in E2 as (_ & F2 & _); unfold healthy in *; rewrite F2, F1;
        by repeat apply Forall_tail_false.
    + unfold healthy in *. rewrite F1. by apply Forall_tail_false.
  - unfold healthy in *. rewrite F1. by apply Forall_tail_false.
Qed.

Lemma peek_later t0 t d k : t0 <= t -> peek t0 d k = None -> peek t d k = None.
Proof.
  intros Ht. unfold peek, alive. destruct (d !! k) as [e|]; [|reflexivity].
  destruct (expireAt e) as [x|]; [|discriminate].
  destruct (Z.ltb_spec t0 x); [discriminate|]. intros _.
  by destruct (Z.ltb_spec t x); [lia|].
Qed.

(** X16. The cache and the rate limiter keep their keys in one store.
    On a healthy backend, after [clear()] of the cache without a
    namespace, and likewise after [clear("ratelimit")], no key of the
    rate limiter is blocked any more and every window count is back at
    zero. *)
Theorem cache_clear_resets_rate_limiter (ns : option string) (key : string)
    (config : RateLimitConfig) (w : world) (t : Z) :
  let after := (CacheService.clear ns w).2 in
  healthy w -> ns = None \/ ns = Some "ratelimit" -> clock w <= t ->
  (isBlocked key (at_time t after)).1 = Ok false /\
  hits t (db after) (prefixed (resultKey key t (duration config))) = 0.
Proof.
  intros after Hh Hns Ht.
  pose proof (clear_healthy ns w Hh) as Hh'. fold after in Hh'.
  assert (Hgone : forall k, peek t (db after) (prefixed k) = None).
  { intros k. subst after. destruct Hns as [-> | ->].
    - destruct (clear_everything None w Hh eq_refl) as [_ ->]. unfold peek.
      by rewrite lookup_empty.
    - destruct (clear_namespace "ratelimit" w Hh eq_refl eq_refl) as (_ & _ & H2 & _).
      apply (peek_later (clock w)); [exact Ht|]. apply H2. apply prefix_app. }
  split.
  - rewrite isBlocked_healthy by exact Hh'. simpl. unfold present. by rewrite Hgone.
  - unfold hits. by rewrite Hgone.
Qed.

Lemma cache_clear_resets_rate_limiter_witness :
  let config := {| points := 0; duration := inject_Z 60; blockDuration := Some 60 |} in
  let limited := (consume "user" config (Host.fresh 1000 [])).2 in
  (isBlocked "user" (at_time 2000 limited)).1 = Ok true /\
  (isBlocked "user" (at_time 2000 (CacheService.clear None (at_time 2000 limited)).2)).1
    = Ok false /\
  hits 2000 (db (CacheService.clear (Some "ratelimit") (at_time 2000 limited)).2)
    "ratelimit:user:0" = 0.
Proof.
  intros config limited.
  split; [vm_compute; reflexivity|].
  split.
  - exact (proj1 (cache_clear_resets_rate_limiter None "user" config (at_time 2000 limited) 2000
                    ltac:(constructor) (or_introl eq_refl) ltac:(simpl; lia))).
  - exact (proj2 (cache_clear_resets_rate_limiter (Some "ratelimit") "user" config
                    (at_time 2000 limited) 2000
                    ltac:(constructor) (or_intror eq_refl) ltac:(simpl; lia))).
Defined.

(** ** The gate, request by request *)

(** X17. A request that finds its key blocked is turned away before
    [consume] is called: on a healthy backend the gate rejects it with
    status 429, sets no header, and leaves the store, window counts
    included, as it was. *)
Theorem blocked_request_is_not_counted (sha256_hex : string -> string)
    (req : RateLimitGuard.request) (options : RateLimitGuard.RateLimitOptions) (w : world) :
  let key := RateLimitGuard.generateKey sha256_hex req in
  let after := RateLimitGuard.canActivate sha256_hex req (Some options) w in
  healthy w ->
  present (clock w) (db w) (prefixed (key +:+ ":blocked")) = true ->
  after.1 = Ok {| RateLimitGuard.headers := None;
                  RateLimitGuard.result :=
                    inr {| RateLimitGuard.statusCode := 429;
                           RateLimitGuard.retryAfter := None |} |} /\
  db after.2 = db w.
Proof.
  intros key after Hh Hb. subst after.
  unfold RateLimitGuard.canActivate, RateLimitGuard.getRateLimitConfig. cbv zeta. fold key.
  unfold bind at 1, isBlocked, bind, try_catch, log, ret.
  rewrite send_healthy by assumption. unfold Redis.EXISTS. rewrite Hb. simpl. auto.
Qed.

Lemma blocked_request_is_not_counted_witness :
  let req := {| RateLimitGuard.ip := "10.0.0.7"; RateLimitGuard.user_agent := None;
                RateLimitGuard.route_path := None; RateLimitGuard.url := "/tasks" |} in
  let options := {| RateLimitGuard.limit := Some 10; RateLimitGuard.windowMs := Some 60000 |} in
  let w := World {[ "ratelimit:10.0.0.7::/tasks:blocked" := Entry "1" (Some 61000);
                    "ratelimit:10.0.0.7::/tasks:0" := Entry "11" (Some 60000) ]} 2000 [] 0 in
  let after := RateLimitGuard.canActivate (fun s => s) req (Some options) w in
  after.1 = Ok {| RateLimitGuard.headers := None;
                  RateLimitGuard.result :=
                    inr {| RateLimitGuard.statusCode := 429;
                           RateLimitGuard.retryAfter := None |} |} /\
  db after.2 = db w.
Proof.
  intros req options w after.
  exact (blocked_request_is_not_counted (fun s => s) req options w
           ltac:(constructor) eq_refl).
Defined.

(** X18. When the backend is down for both round trips, the gate lets
    the request through: it returns [true] with the limit of the route,
    a remaining count of 1 and a reset time of now in the headers, and
    writes nothing. *)
Theorem outage_lets_requests_through (sha256_hex : string -> string)
    (req : RateLimitGuard.request) (options : RateLimitGuard.RateLimitOptions)
    (w : world) (fs : list bool) :
  faults w = true :: true :: fs ->
  RateLimitGuard.canActivate sha256_hex req (Some options) w =
    (Ok {| RateLimitGuard.headers :=
             Some {| RateLimitGuard.X_RateLimit_Limit :=
                       or_default (RateLimitGuard.limit options) 100;
                     RateLimitGuard.X_RateLimit_Remaining := 1;
                     RateLimitGuard.X_RateLimit_Reset := inject_Z (clock w) + 0 |};
           RateLimitGuard.result := inl true |},
     World (db w) (clock w) fs (S (S (raised w)))).
Proof.
  intros Hf.
  unfold RateLimitGuard.canActivate, RateLimitGuard.getRateLimitConfig. cbv zeta.
  cbn [RateLimitGuard.limit' RateLimitGuard.windowMs'].
  unfold bind at 1, isBlocked, bind at 1, try_catch at 1, log, ret.
  rewrite (send_lost _ _ (true :: fs)) by assumption.
  unfold bind, consume, bind, try_catch, Date_now, log, ret, Client.exec. simpl.
  reflexivity.
Qed.

Lemma outage_lets_requests_through_witness :
  let req := {| RateLimitGuard.ip := "10.0.0.7"; RateLimitGuard.user_agent := None;
                RateLimitGuard.route_path := None; RateLimitGuard.url := "/tasks" |} in
  let options := {| RateLimitGuard.limit := Some 10; RateLimitGuard.windowMs := Some 60000 |} in
  (RateLimitGuard.canActivate (fun s => s) req (Some options) (Host.fresh 5000 [true; true])).1
  = Ok {| RateLimitGuard.headers :=
            Some {| RateLimitGuard.X_RateLimit_Limit := 10;
                    RateLimitGuard.X_RateLimit_Remaining := 1;
                    RateLimitGuard.X_RateLimit_Reset := inject_Z 5000 + 0 |};
          RateLimitGuard.result := inl true |}.
Proof.
  intros req options.
  by rewrite (outage_lets_requests_through (fun s => s) req options
                (Host.fresh 5000 [true; true]) [] eq_refl).
Defined.

Lemma consume_remaining_nonneg key config w r :
  (consume key config w).1 = Ok r -> 0 <= remainingPoints r.
Proof.
  unfold consume, bind, try_catch, Date_now, log, ret, throw. simpl.
  destruct (Client.exec _ w) as [[slots|e] w0]; simpl; [|intros [= <-]; simpl; lia].
  destruct slots as [|[c|e1] [|[t|e2] [|? ?]]]; simpl; try (intros [= <-]; simpl; lia).
  destruct (c =? 1); simpl.
  - destruct (Client.send (PEXPIRE _ _) w0) as [[x|e3] w3]; simpl;
      [|intros [= <-]; simpl; lia].
    destruct (_ && _); simpl.
    + destruct (Client.send (Redis.SET_PX _ _ _) w3) as [[x'|e4] w4]; simpl;
        intros [= <-]; simpl; lia.
    + intros [= <-]; simpl; lia.
  - destruct (_ && _); simpl.
    + destruct (Client.send (Redis.SET_PX _ _ _) w0) as [[x'|e4] w4]; simpl;
        intros [= <-]; simpl; lia.
    + intros [= <-]; simpl; lia.
Qed.

(** X19. Whenever the gate sets the rate-limit headers, the limit header
    is the limit declared for the route, or 100 when none or 0 is
    declared, so it is never 0; and the remaining header is never
    negative. *)
Theorem headers_are_well_formed (sha256_hex : string -> string)
    (req : RateLimitGuard.request) (options : RateLimitGuard.RateLimitOptions)
    (w : world) (v : RateLimitGuard.verdict) (h : RateLimitGuard.RateLimitHeaders) :
  (RateLimitGuard.canActivate sha256_hex req (Some options) w).1 = Ok v ->
  RateLimitGuard.headers v = Some h ->
  RateLimitGuard.X_RateLimit_Limit h = or_default (RateLimitGuard.limit options) 100 /\
  RateLimitGuard.X_RateLimit_Limit h <> 0 /\
  0 <= RateLimitGuard.X_RateLimit_Remaining h.
Proof.
  unfold RateLimitGuard.canActivate, RateLimitGuard.getRateLimitConfig. cbv zeta.
  cbn [RateLimitGuard.limit' RateLimitGuard.windowMs'].
  unfold bind at 1.
  destruct (isBlocked _ w) as [[[]|e] w1]; simpl; try discriminate.
  { intros [= <-]. discriminate. }
  unfold bind at 1.
  match goal with |- context [consume ?k ?c w1] =>
    pose proof (consume_remaining_nonneg k c w1) as Hr;
    destruct (consume k c w1) as [[r|e] w2] end; simpl; [|discriminate].
  specialize (Hr r eq_refl). unfold bind, Date_now, ret.
  assert (Hl : or_default (RateLimitGuard.limit options) 100 <> 0).
  { unfold or_default, truthy_num. destruct (RateLimitGuard.limit options) as [l|]; [|lia].
    destruct (Z.eqb_spec l 0); simpl; lia. }
  destruct (negb (success r)); simpl; intros [= <-] [= <-]; simpl; auto.
Qed.

Lemma headers_are_well_formed_witness :
  let req := {| RateLimitGuard.ip := "10.0.0.7"; RateLimitGuard.user_agent := None;
                RateLimitGuard.route_path := None; RateLimitGuard.url := "/tasks" |} in
  let options := {| RateLimitGuard.limit := Some 0; RateLimitGuard.windowMs := None |} in
  exists v h,
    (RateLimitGuard.canActivate (fun s => s) req (Some options) (Host.fresh 5000 [])).1 = Ok v /\
    RateLimitGuard.headers v = Some h /\
    RateLimitGuard.X_RateLimit_Limit h = 100 /\
    0 <= RateLimitGuard.X_RateLimit_Remaining h.
Proof.
  intros req options.
  destruct (RateLimitGuard.canActivate (fun s => s) req (Some options) (Host.fresh 5000 [])).1
    as [v|e] eqn:E; [|vm_compute in E; discriminate].
  destruct (RateLimitGuard.headers v) as [h|] eqn:Eh.
  - destruct (headers_are_well_formed (fun s => s) req options (Host.fresh 5000 []) v h E Eh)
      as (H1 & _ & H3).
    exists v, h. repeat split; auto.
  - vm_compute in E. injection E as <-. discriminate Eh.
Defined.

(** ** Reading tasks through the cache *)

Lemma get_healthy (J : Json) key ns w :
  healthy w ->
  CacheService.get key ns w =
    (Ok match peek (clock w) (db w) (CacheService.getKey key ns) with
        | Some e => if truthy (payload e) then default null (JSON_parse (payload e)) else null
        | None => null
        end,
     World (db w) (clock w) (tail (faults w)) (raised w)).
Proof.
  intros Hh. unfold CacheService.get, CacheService.parse, bind, try_catch, log, ret, throw.
  rewrite send_healthy by assumption. simpl.
  destruct (peek (clock w) (db w) _) as [e|]; simpl; [|reflexivity].
  destruct (truthy (payload e)); [|reflexivity].
  by destruct (JSON_parse (payload e)).
Qed.

Lemma findOne_cached (J : Json) (is_truthy : value -> bool)
    (repository_findOne : string -> option value) (id : string) (w : world)
    (e : entry) (cached : value) :
  healthy w ->
  peek (clock w) (db w) (TasksService.SINGLE_TASK id) = Some e ->
  truthy (payload e) = true ->
  JSON_parse (payload e) = Some cached ->
  is_truthy cached = true ->
  TasksService.findOne is_truthy repository_findOne id w =
    (Ok (TasksService.Task cached), World (db w) (clock w) (tail (faults w)) (raised w)).
Proof.
  intros Hh Hk Ht Hp Hc. unfold TasksService.findOne, bind.
  rewrite get_healthy by assumption.
  change (CacheService.getKey (TasksService.SINGLE_TASK id) None)
    with (TasksService.SINGLE_TASK id).
  by rewrite Hk, Ht, Hp; simpl; rewrite Hc.
Qed.

(** X20. [findOne] serves a cached task without asking the repository.
    On a healthy backend, if a live entry under [task:id] holds the JSON
    text of a truthy value, [findOne(id)] returns that value and changes
    nothing, whatever the repository holds for [id] by now. *)
Theorem findOne_serves_from_cache (J : Json) (is_truthy : value -> bool)
    (repository_findOne : string -> option value) (id : string) (w : world)
    (e : entry) (cached : value) :
  healthy w ->
  peek (clock w) (db w) (TasksService.SINGLE_TASK id) = Some e ->
  truthy (payload e) = true ->
  JSON_parse (payload e) = Some cached ->
  is_truthy cached = true ->
  (TasksService.findOne is_truthy repository_findOne id w).1 = Ok (TasksService.Task cached) /\
  db (TasksService.findOne is_truthy repository_findOne id w).2 = db w.
Proof.
  intros Hh Hk Ht Hp Hc.
  by rewrite (findOne_cached J is_truthy repository_findOne id w e cached).
Qed.

Lemma findOne_serves_from_cache_witness :
  let w := World {[ "task:7" := Entry "42" (Some 300000) ]} 1000 [] 0 in
  let truthy_host := fun v => match v with Host.VInt n => negb (n =? 0) | Host.VBool b => b | _ => false end in
  (@TasksService.findOne Host.json truthy_host (fun _ => None) "7" w).1
    = Ok (@TasksService.Task Host.json (Host.VInt 42)).
Proof.
  intros w truthy_host.
  exact (proj1 (findOne_serves_from_cache Host.json truthy_host (fun _ => None) "7" w
                  (Entry "42" (Some 300000)) (Host.VInt 42)
                  ltac:(constructor) eq_refl eq_refl eq_refl eq_refl)).
Defined.

(** X21. [findOne] does not survive a backend that is down.  With the
    row in the repository, if both round trips fail, or if the cache
    has no entry and the write fails, [findOne] raises the backend
    error instead of returning the row. *)
Theorem findOne_fails_with_the_backend (J : Json) (is_truthy : value -> bool)
    (repository_findOne : string -> option value) (id : string) (task : value)
    (w : world) (fs : list bool) :
  is_truthy null = false ->
  repository_findOne id = Some task ->
  faults w = true :: true :: fs \/
  (faults w = false :: true :: fs /\
   peek (clock w) (db w) (TasksService.SINGLE_TASK id) = None) ->
  (TasksService.findOne is_truthy repository_findOne id w).1 = Throw ConnectionError.
Proof.
  intros Hn Hrow Hf.
  unfold TasksService.findOne, CacheService.get, CacheService.set, bind, try_catch,
    log, ret, throw, Client.send.
  destruct Hf as [Hf | [Hf Hmiss]]; rewrite Hf.
  - simpl. rewrite Hn, Hrow. reflexivity.
  - unfold Redis.GET.
    change (CacheService.getKey (TasksService.SINGLE_TASK id) None)
      with (TasksService.SINGLE_TASK id).
    rewrite Hmiss. simpl. rewrite Hn, Hrow. reflexivity.
Qed.

Lemma findOne_fails_with_the_backend_witness :
  let truthy_host := fun v => match v with Host.VInt n => negb (n =? 0) | Host.VBool b => b | _ => false end in
  (@TasksService.findOne Host.json truthy_host (fun _ => Some (Host.VInt 42)) "7"
     (Host.fresh 0 [true; true])).1 = Throw ConnectionError /\
  (@TasksService.findOne Host.json truthy_host (fun _ => Some (Host.VInt 42)) "7"
     (Host.fresh 0 [false; true])).1 = Throw ConnectionError.
Proof.
  intros truthy_host. split.
  - exact (findOne_fails_with_the_backend Host.json truthy_host
             (fun _ => Some (Host.VInt 42)) "7" (Host.VInt 42) (Host.fresh 0 [true; true]) []
             eq_refl eq_refl (or_introl eq_refl)).
  - exact (findOne_fails_with_the_backend Host.json truthy_host
             (fun _ => Some (Host.VInt 42)) "7" (Host.VInt 42) (Host.fresh 0 [false; true]) []
             eq_refl eq_refl (or_intror (conj eq_refl eq_refl))).
Defined.

(** X22. [findOne] fills the cache for five minutes.  On a healthy
    backend, with no entry under [task:id] and a row in the repository
    that is truthy and that JSON serialisation preserves, [findOne(id)]
    returns the row; for the next 300 seconds [findOne(id)] returns that
    same row whatever the repository holds by then, even if the row is
    gone; from 300 seconds on it asks the repository again. *)
Theorem findOne_fills_the_cache (J : Json) (is_truthy : value -> bool)
    (repository_findOne later_findOne : string -> option value) (id : string)
    (task : value) (w : world) (dt : Z) :
  let first := TasksService.findOne is_truthy repository_findOne id w in
  let second := TasksService.findOne is_truthy later_findOne id (at_time (clock w + dt) first.2) in
  healthy w ->
  peek (clock w) (db w) (TasksService.SINGLE_TASK id) = None ->
  is_truthy null = false ->
  repository_findOne id = Some task ->
  is_truthy task = true ->
  JSON_parse (JSON_stringify task) = Some task ->
  truthy (JSON_stringify task) = true ->
  first.1 = Ok (TasksService.Task task) /\
  (0 <= dt < 300000 -> second.1 = Ok (TasksService.Task task)) /\
  (300000 <= dt -> later_findOne id = None -> second.1 = Ok TasksService.NotFoundException).
Proof.
  intros first second Hh Hmiss Hn Hrow Ht Hrt Hne.
  assert (Hfirst : first =
    (Ok (TasksService.Task task),
     World (<[TasksService.SINGLE_TASK id :=
               Entry (JSON_stringify task) (Some (clock w + 300 * 1000))]> (db w))
       (clock w) (tail (tail (faults w))) (raised w))).
  { subst first. unfold TasksService.findOne, bind at 1.
    rewrite get_healthy by assumption.
    change (CacheService.getKey (TasksService.SINGLE_TASK id) None)
      with (TasksService.SINGLE_TASK id).
    rewrite Hmiss, Hn, Hrow. unfold bind.
    rewrite set_healthy by (try healthy_tac; simpl; lia). reflexivity. }
  subst second. rewrite Hfirst. simpl. split; [reflexivity|].
  unfold TasksService.findOne, bind at 1 3.
  rewrite get_healthy by healthy_tac.
  change (CacheService.getKey (TasksService.SINGLE_TASK id) None)
    with (TasksService.SINGLE_TASK id).
  simpl. unfold peek. rewrite lookup_insert_eq. unfold alive. simpl.
  split; intros Hdt.
  - destruct (Z.ltb_spec (clock w + dt) (clock w + 300 * 1000)); [|lia].
    cbn [payload]. rewrite Hne, Hrt. simpl. by rewrite Ht.
  - intros Hgone. destruct (Z.ltb_spec (clock w + dt) (clock w + 300 * 1000)); [lia|].
    by rewrite Hn, Hgone.
Qed.

Lemma findOne_fills_the_cache_witness :
  let truthy_host := fun v => match v with Host.VInt n => negb (n =? 0) | Host.VBool b => b | _ => false end in
  let first := @TasksService.findOne Host.json truthy_host (fun _ => Some (Host.VInt 42)) "7"
                 (Host.fresh 0 []) in
  first.1 = Ok (@TasksService.Task Host.json (Host.VInt 42)) /\
  (@TasksService.findOne Host.json truthy_host (fun _ => None) "7" (at_time 299999 first.2)).1
    = Ok (@TasksService.Task Host.json (Host.VInt 42)) /\
  (@TasksService.findOne Host.json truthy_host (fun _ => None) "7" (at_time 300000 first.2)).1
    = Ok (@TasksService.NotFoundException Host.json).
Proof.
  intros truthy_host first.
  pose proof (findOne_fills_the_cache Host.json truthy_host (fun _ => Some (Host.VInt 42))
                (fun _ => None) "7" (Host.VInt 42) (Host.fresh 0 []) 299999
                ltac:(constructor) eq_refl eq_refl eq_refl eq_refl eq_refl eq_refl)
    as (H1 & H2 & _).
  pose proof (findOne_fills_the_cache Host.json truthy_host (fun _ => Some (Host.VInt 42))
                (fun _ => None) "7" (Host.VInt 42) (Host.fresh 0 []) 300000
                ltac:(constructor) eq_refl eq_refl eq_refl eq_refl eq_refl eq_refl)
    as (_ & _ & H3).
  split; [exact H1|]. split; [exact (H2 ltac:(lia))|exact (H3 ltac:(lia) eq_refl)].
Defined.

(** ** Invalidation after a write *)

Lemma SINGLE_TASK_inj a b : TasksService.SINGLE_TASK a = TasksService.SINGLE_TASK b -> a = b.
Proof. unfold TasksService.SINGLE_TASK. intros E. cbn in E. by injection E. Qed.

Lemma delete_each_healthy taskIds : forall w,
  healthy w ->
  (TasksService.delete_each taskIds w).1 = Ok tt /\
  healthy (TasksService.delete_each taskIds w).2 /\
  clock (TasksService.delete_each taskIds w).2 = clock w /\
  forall k, db (TasksService.delete_each taskIds w).2 !! k
            = if decide (k ∈ TasksService.SINGLE_TASK <$> taskIds) then None else db w !! k.
Proof.
  induction taskIds as [|taskId rest IH]; intros w Hh.
  - split; [reflexivity|]. split; [assumption|]. split; [reflexivity|]. intros k.
    by rewrite decide_False by (by intros ?%elem_of_nil).
  - cbn [TasksService.delete_each]. unfold bind at 1 2 3 4.
    rewrite delete_healthy by assumption.
    change (CacheService.getKey (TasksService.SINGLE_TASK taskId) None)
      with (TasksService.SINGLE_TASK taskId).
    set (w1 := World _ _ _ _).
    assert (Hh1 : healthy w1) by (subst w1; healthy_tac).
    destruct (IH w1 Hh1) as (Hr & Hh2 & Hc & Hdb).
    split; [exact Hr|]. split; [exact Hh2|]. split; [exact Hc|]. intros k. rewrite Hdb. subst w1. simpl.
    destruct (decide (k = TasksService.SINGLE_TASK taskId)) as [->|Hne].
    + rewrite (decide_True (P := _ ∈ _ :: _)) by left.
      rewrite lookup_delete_eq. by case_decide.
    + rewrite lookup_delete_ne by congruence.
      destruct (decide (k ∈ TasksService.SINGLE_TASK <$> rest)) as [Hin|Hin].
      * by rewrite decide_True by by right.
      * rewrite decide_False; [reflexivity|]. by intros [?|?]%elem_of_cons.
Qed.

(** X23. The invalidation after a committed write does its work.  On a
    healthy backend, once [update], [remove] or a batch operation has
    invalidated the cache for its task ids, [findOne] of any of these
    ids answers from the repository, the cached task lists under
    [tasks:...] are gone, and the cached entry of every other task is as
    it was. *)
Theorem invalidate_then_findOne (J : Json) (is_truthy : value -> bool)
    (repository_findOne : string -> option value) (taskIds : list string)
    (id : string) (w : world) (t : Z) :
  let after := TasksService.invalidate taskIds w in
  healthy w -> is_truthy null = false -> id ∈ taskIds -> clock w <= t ->
  after.1 = Ok tt /\
  (TasksService.findOne is_truthy repository_findOne id (at_time t after.2)).1
    = Ok (match repository_findOne id with
          | Some task => TasksService.Task task
          | None => TasksService.NotFoundException
          end) /\
  (forall filter, (CacheService.get ("tasks:" +:+ filter) None (at_time t after.2)).1 = Ok null) /\
  (forall other, other ∉ taskIds ->
     db after.2 !! TasksService.SINGLE_TASK other = db w !! TasksService.SINGLE_TASK other).
Proof.
  intros after Hh Hn Hin Ht. subst after. unfold TasksService.invalidate, bind.
  destruct (delete_each_healthy taskIds w Hh) as (Hr & Hh1 & Hc1 & Hdb1).
  destruct (TasksService.delete_each taskIds w) as [o w1]. simpl in Hr, Hh1, Hc1, Hdb1. subst o.
  destruct (clear_namespace "tasks" w1 Hh1 eq_refl eq_refl) as (Hr2 & Hc2 & Hgone & Hkept).
  pose proof (clear_healthy (Some "tasks") w1 Hh1) as Hh2.
  destruct (CacheService.clear (Some "tasks") w1) as [o w2].
  simpl in Hr2, Hc2, Hgone, Hkept, Hh2 |- *. subst o.
  assert (Hsingle : forall x, db w2 !! TasksService.SINGLE_TASK x = db w1 !! TasksService.SINGLE_TASK x)
    by (intros x; apply Hkept; reflexivity).
  split; [reflexivity|]. split; [|split].
  - unfold TasksService.findOne, bind at 1.
    rewrite get_healthy by healthy_tac.
    change (CacheService.getKey (TasksService.SINGLE_TASK id) None)
      with (TasksService.SINGLE_TASK id).
    unfold peek. simpl. rewrite Hsingle, Hdb1.
    rewrite decide_True by (by apply list_elem_of_fmap_2).
    rewrite Hn. destruct (repository_findOne id) as [task|]; [|reflexivity].
    unfold bind. by rewrite set_healthy by (try healthy_tac; simpl; lia).
  - intros filter. rewrite get_healthy by healthy_tac.
    change (CacheService.getKey ("tasks:" +:+ filter) None) with ("tasks:" +:+ filter).
    simpl clock. simpl db.
    rewrite (peek_later (clock w1) t); [|lia|apply Hgone, (prefix_app "tasks:")].
    reflexivity.
  - intros other Hout. rewrite Hsingle, Hdb1. rewrite decide_False; [reflexivity|].
    intros (x & Hx%SINGLE_TASK_inj & Hxin)%list_elem_of_fmap. by subst x.
Qed.

Lemma invalidate_then_findOne_witness :
  let truthy_host := fun v => match v with Host.VInt n => negb (n =? 0) | Host.VBool b => b | _ => false end in
  let w := World {[ "task:7" := Entry "41" (Some 300000); "task:8" := Entry "8" (Some 300000);
                    "tasks:{}" := Entry "1" (Some 60000) ]} 1000 [] 0 in
  let after := TasksService.invalidate ["7"] w in
  after.1 = Ok tt /\
  (@TasksService.findOne Host.json truthy_host
     (fun id => if String.eqb id "7" then Some (Host.VInt 42) else None) "7"
     (at_time 1000 after.2)).1 = Ok (@TasksService.Task Host.json (Host.VInt 42)) /\
  db after.2 !! "task:8" = Some (Entry "8" (Some 300000)).
Proof.
  intros truthy_host w after.
  destruct (invalidate_then_findOne Host.json truthy_host
              (fun id => if String.eqb id "7" then Some (Host.VInt 42) else None)
              ["7"] "7" w 1000 ltac:(constructor) eq_refl ltac:(left) ltac:(simpl; lia))
    as (H1 & H2 & _ & H4).
  split; [exact H1|]. split; [exact H2|].
  etransitivity; [apply (H4 "8")|reflexivity].
  intros [E|E]%elem_of_cons; [discriminate E|by apply elem_of_nil in E].
Defined.

(** X24. A failed [delete] goes unnoticed and leaves the old task
    behind.  If the backend fails for the [DEL] of the task's key and
    answers the rest, the invalidation of [update] ends without error,
    and the entry is still there: [findOne] of that id keeps returning
    the task as it was cached, whatever the repository holds now. *)
Theorem failed_delete_leaves_stale_task (J : Json) (is_truthy : value -> bool)
    (repository_findOne : string -> option value) (id : string) (w : world)
    (fs : list bool) (e : entry) (cached : value) :
  let after := TasksService.invalidate [id] w in
  faults w = true :: fs -> Forall (fun b => b = false) fs ->
  peek (clock w) (db w) (TasksService.SINGLE_TASK id) = Some e ->
  truthy (payload e) = true ->
  JSON_parse (payload e) = Some cached ->
  is_truthy cached = true ->
  after.1 = Ok tt /\
  (TasksService.findOne is_truthy repository_findOne id after.2).1
    = Ok (TasksService.Task cached).
Proof.
  intros after Hf Hfs Hk Ht Hp Hc.
  set (w1 := World (db w) (clock w) fs (S (raised w))).
  assert (Hinv : after = CacheService.clear (Some "tasks") w1).
  { subst after. unfold TasksService.invalidate, TasksService.delete_each, bind at 1 2.
    unfold CacheService.delete, bind at 1, try_catch at 1, log, ret.
    by rewrite (send_lost _ _ fs) by assumption. }
  rewrite Hinv. clear Hinv after.
  assert (Hh1 : healthy w1) by exact Hfs.
  destruct (clear_namespace "tasks" w1 Hh1 eq_refl eq_refl) as (Hr2 & Hc2 & _ & Hkept).
  pose proof (clear_healthy (Some "tasks") w1 Hh1) as Hh2.
  destruct (CacheService.clear (Some "tasks") w1) as [o w2].
  cbn [fst snd] in *. subst o.
  split; [reflexivity|].
  rewrite (findOne_cached J is_truthy repository_findOne id w2 e cached);
    [reflexivity|assumption| |assumption..].
  unfold peek in *. rewrite Hc2. rewrite Hkept by reflexivity. exact Hk.
Qed.

Lemma failed_delete_leaves_stale_task_witness :
  let truthy_host := fun v => match v with Host.VInt n => negb (n =? 0) | Host.VBool b => b | _ => false end in
  let w := World {[ "task:7" := Entry "41" (Some 300000) ]} 1000 [true] 0 in
  let after := TasksService.invalidate ["7"] w in
  after.1 = Ok tt /\
  (@TasksService.findOne Host.json truthy_host (fun _ => Some (Host.VInt 42)) "7" after.2).1
    = Ok (@TasksService.Task Host.json (Host.VInt 41)).
Proof.
  intros truthy_host w after.
  exact (failed_delete_leaves_stale_task Host.json truthy_host (fun _ => Some (Host.VInt 42))
           "7" w [] (Entry "41" (Some 300000)) (Host.VInt 41)
           eq_refl ltac:(constructor) eq_refl eq_refl eq_refl eq_refl).
Defined.

(** ** Refresh tokens *)

Section Auth.
Import AuthService.
Context `{Services}.

Lemma kept_refl l : kept l l.
Proof. intros k y Hk. by exists y. Qed.

Lemma kept_trans l1 l2 l3 : kept l1 l2 -> kept l2 l3 -> kept l1 l3.
Proof.
  intros H12 H23 k y Hk.
  destruct (H12 k y Hk) as (y2 & Hk2 & Ht2 & Hu2 & He2 & Hr2).
  destruct (H23 k y2 Hk2) as (y3 & Hk3 & Ht3 & Hu3 & He3 & Hr3).
  exists y3. repeat split; [exact Hk3|congruence..|auto].
Qed.

Lemma kept_app l x : kept l (l ++ [x]).
Proof.
  intros k y Hk. exists y. split; [|done].
  rewrite lookup_app_l; [exact Hk|]. by eapply lookup_lt_Some.
Qed.

Lemma kept_revoke l i r : l !! i = Some r -> kept l (<[i := revoked r]> l).
Proof.
  intros Hi k y Hk. destruct (decide (k = i)) as [->|Hne].
  - exists (revoked r). rewrite list_lookup_insert_eq by (by eapply lookup_lt_Some).
    assert (y = r) as -> by congruence. done.
  - exists y. by rewrite list_lookup_insert_ne by congruence.
Qed.

Lemma kept_logout u d : kept (refresh_tokens d) (refresh_tokens (logout u d)).
Proof.
  intros k y Hk. unfold logout. cbn [refresh_tokens]. rewrite list_lookup_fmap, Hk. simpl.
  destruct (_ && _); eexists; (split; [reflexivity|done]).
Qed.

Lemma kept_length l l' : kept l l' -> (length l <= length l')%nat.
Proof.
  intros Hk. destruct l as [|x l] using rev_ind; [simpl; lia|].
  destruct (Hk (length l) x) as (y & Hy & _).
  - by rewrite lookup_app_r, Nat.sub_diag by lia.
  - apply lookup_lt_Some in Hy. rewrite length_app. simpl. lia.
Qed.

(** What [generateTokens] writes: one row at the end of the table. *)
Lemma generateTokens_rows userId email role d :
  let issued := generateTokens userId email role d in
  exists row,
    refresh_tokens issued.2 = refresh_tokens d ++ [row] /\
    token row = refresh_token issued.1 /\
    AuthService.userId row = userId /\
    expiresAt row
      = now d + ms (RateLimitGuard.or_string (configService_get "JWT_REFRESH_EXPIRATION") "7d") /\
    isRevoked row = false /\
    now issued.2 = now d.
Proof. unfold generateTokens, generateRefreshToken. simpl. eexists. repeat split. Qed.

Lemma kept_login dto d : kept (refresh_tokens d) (refresh_tokens (login dto d).2).
Proof.
  unfold login.
  destruct (usersService_findByEmail _) as [u|]; [|apply kept_refl].
  destruct (negb _); [apply kept_refl|].
  destruct (generateTokens_rows (id u) (email u) (role u) d) as (row & Hrows & _).
  destruct (generateTokens _ _ _ d) as [tk d']. simpl in *. rewrite Hrows. apply kept_app.
Qed.

Lemma kept_refreshTokens t d : kept (refresh_tokens d) (refresh_tokens (refreshTokens t d).2).
Proof.
  unfold refreshTokens.
  destruct (findOne t d) as [[i r]|] eqn:Hf; [|apply kept_refl].
  destruct (_ || _); [apply kept_refl|].
  unfold findOne in Hf. apply list_find_Some in Hf as (Hi & _).
  destruct (relation_user r) as [u|]; [|by apply kept_revoke].
  set (d1 := {| refresh_tokens := _ |}).
  destruct (generateTokens_rows (id u) (email u) (role u) d1) as (row & Hrows & _).
  destruct (generateTokens _ _ _ d1) as [tk d2]. simpl in *. rewrite Hrows.
  eapply kept_trans; [by apply kept_revoke|apply kept_app].
Qed.

Lemma kept_step c d : kept (refresh_tokens d) (refresh_tokens (step c d)).
Proof.
  destruct c; simpl.
  - apply kept_login.
  - apply kept_refreshTokens.
  - apply kept_logout.
  - apply kept_refl.
Qed.

Lemma kept_run calls : forall d, kept (refresh_tokens d) (refresh_tokens (run calls d)).
Proof.
  induction calls as [|c calls IH]; intros d; [apply kept_refl|].
  eapply kept_trans; [apply (kept_step c)|apply IH].
Qed.

Lemma step_length c d :
  (length (refresh_tokens (step c d)) <= S (length (refresh_tokens d)))%nat.
Proof.
  destruct c; simpl.
  - unfold login.
    destruct (usersService_findByEmail _) as [u|]; [|simpl; lia].
    destruct (negb _); [simpl; lia|].
    destruct (generateTokens_rows (id u) (email u) (role u) d) as (row & Hrows & _).
    destruct (generateTokens _ _ _ d) as [tk d']. simpl in *. rewrite Hrows, length_app. simpl. lia.
  - unfold refreshTokens.
    destruct (findOne refreshToken d) as [[i r]|]; [|simpl; lia].
    destruct (_ || _); [simpl; lia|].
    destruct (relation_user r) as [u|]; [|simpl; rewrite length_insert; lia].
    set (d1 := {| refresh_tokens := _ |}).
    destruct (generateTokens_rows (id u) (email u) (role u) d1) as (row & Hrows & _).
    destruct (generateTokens _ _ _ d1) as [tk d2]. simpl in *.
    rewrite Hrows, length_app, length_insert. simpl. lia.
  - unfold logout. simpl. rewrite length_fmap. lia.
  - simpl. lia.
Qed.

Lemma run_length calls : forall d,
  (length (refresh_tokens (run calls d)) <= length (refresh_tokens d) + length calls)%nat.
Proof.
  induction calls as [|c calls IH]; intros d; [simpl; lia|].
  change (run (c :: calls) d) with (run calls (step c d)).
  specialize (IH (step c d)). pose proof (step_length c d). simpl. lia.
Qed.

Lemma spent_kept t l l' : kept l l' -> spent t l -> spent t l'.
Proof.
  intros Hk (i & r & Hf & Hr). apply list_find_Some in Hf as (Hi & Ht & Hbefore).
  destruct (Hk i r Hi) as (r' & Hi' & Ht' & _ & _ & Hr').
  exists i, r'. split; [|auto]. apply list_find_Some. split; [exact Hi'|]. split; [congruence|].
  intros j y Hj Hlt Hy.
  destruct (lookup_lt_is_Some_2 l j) as [y0 Hj0].
  { apply lookup_lt_Some in Hi. lia. }
  destruct (Hk j y0 Hj0) as (y1 & Hj1 & Ht1 & _).
  assert (y1 = y) as -> by congruence.
  apply (Hbefore j y0 Hj0 Hlt). congruence.
Qed.

Lemma spent_refused t d :
  spent t (refresh_tokens d) ->
  refreshTokens t d = (Raise (ForbiddenException "Invalid refresh token"), d).
Proof.
  intros (i & r & Hf & Hr). unfold refreshTokens, findOne.
  by rewrite Hf, Hr.
Qed.

Lemma refreshTokens_spends t d tk d' :
  refreshTokens t d = (Return tk, d') -> spent t (refresh_tokens d').
Proof.
  unfold refreshTokens.
  destruct (findOne t d) as [[i r]|] eqn:Hf; [|discriminate].
  destruct (_ || _); [discriminate|].
  destruct (relation_user r) as [u|]; [|discriminate].
  set (d1 := {| refresh_tokens := _ |}).
  destruct (generateTokens_rows (id u) (email u) (role u) d1) as (row & Hrows & _).
  destruct (generateTokens _ _ _ d1) as [tk' d2]. simpl in Hrows. intros [= _ <-].
  rewrite Hrows. apply (spent_kept t (refresh_tokens d1)); [apply kept_app|].
  unfold findOne in Hf. apply list_find_Some in Hf as (Hi & Ht & Hbefore).
  exists i, (revoked r). split; [|reflexivity]. subst d1. simpl.
  apply list_find_Some. split; [|split; [exact Ht|]].
  - apply list_lookup_insert_eq. by eapply lookup_lt_Some.
  - intros j y Hj Hlt. rewrite list_lookup_insert_ne in Hj by lia. by apply (Hbefore j).
Qed.

Lemma logout_findOne u t d i row :
  findOne t d = Some (i, row) ->
  findOne t (logout u d)
    = Some (i, if String.eqb (userId row) u && negb (isRevoked row) then revoked row else row).
Proof.
  intros Hf. unfold findOne in Hf. apply list_find_Some in Hf as (Hi & Ht & Hbefore).
  unfold findOne, logout. cbn [refresh_tokens]. apply list_find_Some.
  split; [by rewrite list_lookup_fmap, Hi|]. split.
  - by destruct (_ && _).
  - intros j y Hj Hlt. rewrite list_lookup_fmap in Hj.
    destruct (refresh_tokens d !! j) as [y0|] eqn:Hj0; [|discriminate].
    injection Hj as <-. intros Hy. apply (Hbefore j y0 Hj0 Hlt).
    by destruct (_ && _).
Qed.

Lemma login_rows dto d session d' :
  login dto d = (Return session, d') ->
  exists row,
    refresh_tokens d' = refresh_tokens d ++ [row] /\
    token row = refresh_token (tokens session) /\
    userId row = (user session).1.1 /\
    expiresAt row
      = now d + ms (RateLimitGuard.or_string (configService_get "JWT_REFRESH_EXPIRATION") "7d") /\
    isRevoked row = false /\
    now d' = now d /\ hashes d' = S (hashes d).
Proof.
  unfold login.
  destruct (usersService_findByEmail _) as [u|]; [|discriminate].
  destruct (negb _); [discriminate|].
  unfold generateTokens, generateRefreshToken. intros [= <- <-]. simpl.
  eexists. repeat split.
Qed.

Lemma findOne_last t l row n h :
  t ∉ token <$> l -> token row = t ->
  findOne t {| refresh_tokens := l ++ [row]; now := n; hashes := h |} = Some (length l, row).
Proof.
  intros Hfresh Ht. unfold findOne. cbn [refresh_tokens]. apply list_find_Some.
  split; [by rewrite lookup_app_r, Nat.sub_diag by lia|]. split; [exact Ht|].
  intros j y Hj Hlt Hy. rewrite lookup_app_l in Hj by lia.
  apply Hfresh, list_elem_of_fmap. exists y. split; [done|]. by eapply list_elem_of_lookup_2.
Qed.

End Auth.

(** X25. A refresh token is good for one exchange.  Once [refreshTokens]
    has accepted a token, it refuses that token with
    [ForbiddenException] ever after, whatever logins, exchanges and
    logouts happen in between and however the clock moves. *)
Theorem refresh_token_single_use (svc : AuthService.Services) (refreshToken : string)
    (d d' : AuthService.database) (issued : AuthService.Tokens)
    (calls : list AuthService.call) :
  AuthService.refreshTokens refreshToken d = (AuthService.Return issued, d') ->
  (AuthService.refreshTokens refreshToken (AuthService.run calls d')).1
    = AuthService.Raise (AuthService.ForbiddenException "Invalid refresh token").
Proof.
  intros Hok. rewrite spent_refused; [reflexivity|].
  eapply spent_kept; [apply kept_run|]. by eapply refreshTokens_spends.
Qed.


Lemma refresh_token_single_use_witness :
  let ann := {| AuthService.LoginDto_email := "ann@example.org";
                AuthService.LoginDto_password := "secret" |} in
  let d := (@AuthService.login AuthService.host ann
              {| AuthService.refresh_tokens := []; AuthService.now := 1000;
                 AuthService.hashes := 0 |}).2 in
  let exchanged := @AuthService.refreshTokens AuthService.host "u11000/0" d in
  exchanged.1 = AuthService.Return {| AuthService.access_token := "u1.15m";
                                      AuthService.refresh_token := "u11000/1" |} /\
  (@AuthService.refreshTokens AuthService.host "u11000/0"
     (@AuthService.run AuthService.host
        [AuthService.Login ann; AuthService.Wait 5000] exchanged.2)).1
    = AuthService.Raise (AuthService.ForbiddenException "Invalid refresh token").
Proof.
  intros ann d exchanged. split; [vm_compute; reflexivity|].
  apply (refresh_token_single_use AuthService.host "u11000/0" d exchanged.2
           {| AuthService.access_token := "u1.15m"; AuthService.refresh_token := "u11000/1" |}).
  vm_compute. reflexivity.
Defined.


(** X26. [logout] ends every session of the user and of nobody else.
    After [logout(u)] each refresh token held by a row of [u] is refused
    ever after, while a token of another user is exchanged exactly as
    it would have been without the logout. *)
Theorem logout_revokes_the_users_tokens (svc : AuthService.Services) (u refreshToken : string)
    (d : AuthService.database) (i : nat) (row : AuthService.RefreshToken)
    (calls : list AuthService.call) :
  AuthService.findOne refreshToken d = Some (i, row) ->
  (AuthService.userId row = u ->
     (AuthService.refreshTokens refreshToken
        (AuthService.run calls (AuthService.logout u d))).1
       = AuthService.Raise (AuthService.ForbiddenException "Invalid refresh token")) /\
  (AuthService.userId row <> u ->
     (AuthService.refreshTokens refreshToken (AuthService.logout u d)).1
       = (AuthService.refreshTokens refreshToken d).1).
Proof.
  intros Hf. pose proof (logout_findOne u _ _ _ _ Hf) as Hfind. split.
  - intros Hu. rewrite spent_refused; [reflexivity|].
    eapply spent_kept; [apply kept_run|]. eexists i, _. split; [exact Hfind|].
    apply String.eqb_eq in Hu. rewrite Hu.
    by destruct (AuthService.isRevoked row) eqn:Hr.
  - intros Hu. unfold AuthService.refreshTokens. rewrite Hfind, Hf.
    apply String.eqb_neq in Hu. rewrite Hu.
    cbn [AuthService.now AuthService.logout andb].
    destruct (_ || _); [reflexivity|].
    destruct (AuthService.relation_user row) as [usr|]; reflexivity.
Qed.

Lemma logout_revokes_the_users_tokens_witness :
  let d := {| AuthService.refresh_tokens :=
                [ {| AuthService.token := "a"; AuthService.userId := "u1";
                     AuthService.expiresAt := 9000; AuthService.isRevoked := false |};
                  {| AuthService.token := "b"; AuthService.userId := "u2";
                     AuthService.expiresAt := 9000; AuthService.isRevoked := false |} ];
              AuthService.now := 1000; AuthService.hashes := 2 |} in
  (@AuthService.refreshTokens AuthService.host "a"
     (@AuthService.run AuthService.host [AuthService.Wait 2000] (AuthService.logout "u1" d))).1
    = AuthService.Raise (AuthService.ForbiddenException "Invalid refresh token") /\
  (@AuthService.refreshTokens AuthService.host "b" (AuthService.logout "u1" d)).1
    = AuthService.Return {| AuthService.access_token := "u2.15m";
                            AuthService.refresh_token := "u21000/2" |}.
Proof.
  intros d. split.
  - apply (proj1 (logout_revokes_the_users_tokens AuthService.host "u1" "a" d 0 _
                    [AuthService.Wait 2000] eq_refl)). reflexivity.
  - etransitivity.
    + apply (proj2 (logout_revokes_the_users_tokens AuthService.host "u1" "b" d 1 _ [] eq_refl)).
      vm_compute. discriminate.
    + vm_compute. reflexivity.
Defined.

(** X27. A login opens a session that lasts as long as the refresh
    token.  After a successful [login] whose new refresh token is not
    already in the table, and with the user's row in the users table,
    [refreshTokens] accepts that token up to and including the instant
    of its expiry, [JWT_REFRESH_EXPIRATION] (seven days when it is not
    configured) after the login, and returns an access token for that
    user; after that instant it refuses the token. *)
Theorem login_then_refresh (svc : AuthService.Services) (loginDto : AuthService.LoginDto)
    (d d' : AuthService.database) (session : AuthService.Session)
    (usr : AuthService.User) (t : Z) :
  let refreshToken := AuthService.refresh_token (AuthService.tokens session) in
  let expiry := AuthService.now d + AuthService.ms
                  (RateLimitGuard.or_string
                     (AuthService.configService_get "JWT_REFRESH_EXPIRATION") "7d") in
  AuthService.login loginDto d = (AuthService.Return session, d') ->
  refreshToken ∉ AuthService.token <$> AuthService.refresh_tokens d ->
  List.find (fun u => String.eqb (AuthService.id u) (AuthService.user session).1.1)
    AuthService.users = Some usr ->
  (t <= expiry ->
     exists issued,
       (AuthService.refreshTokens refreshToken (AuthService.at_time t d')).1
         = AuthService.Return issued /\
       AuthService.access_token issued
         = AuthService.generateAccessToken (AuthService.id usr) (AuthService.email usr)
             (AuthService.role usr)) /\
  (expiry < t ->
     (AuthService.refreshTokens refreshToken (AuthService.at_time t d')).1
       = AuthService.Raise (AuthService.ForbiddenException "Invalid refresh token")).
Proof.
  intros refreshToken expiry Hlogin Hfresh Husr.
  destruct (login_rows _ _ _ _ Hlogin) as (row & Hrows & Htok & Huid & Hexp & Hrev & Hnow & Hh).
  assert (Hfind : AuthService.findOne refreshToken (AuthService.at_time t d')
                  = Some (length (AuthService.refresh_tokens d), row)).
  { unfold AuthService.at_time. rewrite Hrows. by apply findOne_last. }
  unfold AuthService.refreshTokens. rewrite Hfind, Hrev. cbn [orb AuthService.at_time AuthService.now].
  rewrite Hexp. fold expiry. split; intros Ht.
  - destruct (Z.ltb_spec expiry t); [lia|].
    unfold AuthService.relation_user. rewrite Huid, Husr.
    unfold AuthService.generateTokens, AuthService.generateRefreshToken.
    eexists. split; reflexivity.
  - by destruct (Z.ltb_spec expiry t); [|lia].
Qed.

Lemma login_then_refresh_witness :
  let ann := {| AuthService.LoginDto_email := "ann@example.org";
                AuthService.LoginDto_password := "secret" |} in
  let d' := (@AuthService.login AuthService.host ann
               {| AuthService.refresh_tokens := []; AuthService.now := 1000;
                  AuthService.hashes := 0 |}).2 in
  (exists issued,
     (@AuthService.refreshTokens AuthService.host "u11000/0"
        (AuthService.at_time 604801000 d')).1 = AuthService.Return issued /\
     AuthService.access_token issued = "u1.15m") /\
  (@AuthService.refreshTokens AuthService.host "u11000/0" (AuthService.at_time 604801001 d')).1
    = AuthService.Raise (AuthService.ForbiddenException "Invalid refresh token").
Proof.
  intros ann d'.
  pose proof (fun t => login_then_refresh AuthService.host ann
                {| AuthService.refresh_tokens := []; AuthService.now := 1000;
                   AuthService.hashes := 0 |} d'
                {| AuthService.tokens := {| AuthService.access_token := "u1.15m";
                                            AuthService.refresh_token := "u11000/0" |};
                   AuthService.user := ("u1", "ann@example.org", "admin") |}
                {| AuthService.id := "u1"; AuthService.email := "ann@example.org";
                   AuthService.name := "Ann"; AuthService.password := "bcrypt:secret";
                   AuthService.role := "admin" |} t
                eq_refl ltac:(apply not_elem_of_nil) eq_refl) as Hw.
  split.
  - apply (proj1 (Hw 604801000)). vm_compute. discriminate.
  - apply (proj2 (Hw 604801001)). reflexivity.
Defined.

(** X28. The table of refresh tokens only grows.  No sequence of
    logins, exchanges and logouts removes a row, changes its token, its
    owner or its expiry, or lifts a revocation; each call adds one row
    at most. *)
Theorem refresh_tokens_only_grow (svc : AuthService.Services)
    (calls : list AuthService.call) (d : AuthService.database) :
  AuthService.kept (AuthService.refresh_tokens d)
    (AuthService.refresh_tokens (AuthService.run calls d)) /\
  (length (AuthService.refresh_tokens d)
     <= length (AuthService.refresh_tokens (AuthService.run calls d))
     <= length (AuthService.refresh_tokens d) + length calls)%nat.
Proof.
  split; [apply kept_run|]. split; [apply kept_length, kept_run|apply run_length].
Qed.

(** X29. A call that is turned away writes nothing.  [login] fails with
    the one [UnauthorizedException], whether the address is unknown or
    the password is wrong, and [refreshTokens] with its
    [ForbiddenException]; either way the table is as it was. *)
Theorem rejected_calls_write_nothing (svc : AuthService.Services)
    (loginDto : AuthService.LoginDto) (refreshToken : string) (d : AuthService.database) :
  (forall e, (AuthService.login loginDto d).1 = AuthService.Raise e ->
     e = AuthService.UnauthorizedException "Invalid credentials" /\
     (AuthService.login loginDto d).2 = d) /\
  (forall message,
     (AuthService.refreshTokens refreshToken d).1
       = AuthService.Raise (AuthService.ForbiddenException message) ->
     message = "Invalid refresh token" /\ (AuthService.refreshTokens refreshToken d).2 = d).
Proof.
  split.
  - intros e. unfold AuthService.login.
    destruct (AuthService.usersService_findByEmail _) as [u|]; [|by intros [= <-]].
    destruct (negb _); [by intros [= <-]|].
    by destruct (AuthService.generateTokens _ _ _ d).
  - intros message. unfold AuthService.refreshTokens.
    destruct (AuthService.findOne refreshToken d) as [[i r]|]; [|by intros [= <-]].
    destruct (_ || _); [by intros [= <-]|].
    destruct (AuthService.relation_user r) as [u|]; [|discriminate].
    by destruct (AuthService.generateTokens _ _ _ _).
Qed.

Lemma rejected_calls_write_nothing_witness :
  let guess := {| AuthService.LoginDto_email := "ann@example.org";
                  AuthService.LoginDto_password := "guess" |} in
  let d := {| AuthService.refresh_tokens := []; AuthService.now := 1000;
              AuthService.hashes := 0 |} in
  (@AuthService.login AuthService.host guess d).2 = d /\
  (@AuthService.refreshTokens AuthService.host "none" d).2 = d.
Proof.
  intros guess d. split.
  - exact (proj2 (proj1 (rejected_calls_write_nothing AuthService.host guess "none" d)
                    (AuthService.UnauthorizedException "Invalid credentials") eq_refl)).
  - exact (proj2 (proj2 (rejected_calls_write_nothing AuthService.host guess "none" d)
                    "Invalid refresh token" eq_refl)).
Defined.
